(** * Github_Analyzer: the analysis pipeline of [app.py]

    A shallow embedding of the repository's single source file and the
    properties of its file sampler, heuristic scanner, severity aggregator,
    health scorer and request handler.

    Python values are modelled as follows.
    - [int] is [Z] (unbounded, no wrap-around).
    - [str] is a list of Unicode code points ([list N]); [len] is the list
      length, slicing is [take], concatenation is [++].
    - the [counts] dictionary is a [gmap string Z]; a missing key is the
      [KeyError] of Python and shows as [None].
    - the external collaborators (git clone, the file system under the
      temporary directory, the chat completion service, [json.loads],
      [traceback.format_exc], the process environment) are the fields of a
      record [World]; the handler logs every call it makes to them. *)

From Stdlib Require Import ZArith NArith Bool Ascii String DecimalString.
From stdpp Require Import base tactics option list gmap strings.

#[local] Set Warnings "-abstract-large-number".

Local Open Scope Z_scope.

(** ** Python strings *)

Module PyStr.

Definition str : Type := list N.

(** A source literal whose characters are all ASCII. *)
Definition lit (s : string) : str :=
  List.map N_of_ascii (list_ascii_of_string s).

(** [s.startswith(sub)], the test every scan below makes at a position. *)
Fixpoint startswith (sub s : str) : bool :=
  match sub, s with
  | [], _ => true
  | _ :: _, [] => false
  | a :: sub', b :: s' => N.eqb a b && startswith sub' s'
  end.

(** [sub in s]. *)
Fixpoint contains (sub s : str) : bool :=
  startswith sub s ||
  match s with
  | [] => false
  | _ :: s' => contains sub s'
  end.

(** [s.count(sub)]: the occurrences met by a left-to-right scan that
    resumes after the end of each match.  [skip] is the number of
    characters of the last match still to be passed over. *)
Fixpoint count_skip (sub : str) (skip : nat) (s : str) : Z :=
  match s with
  | [] => 0
  | _ :: s' =>
      match skip with
      | S k => count_skip sub k s'
      | O =>
          if startswith sub s
          then 1 + count_skip sub (length sub - 1) s'
          else count_skip sub 0 s'
      end
  end.

Definition count (sub s : str) : Z :=
  match sub with
  | [] => Z.of_nat (length s) + 1
  | _ :: _ => count_skip sub 0 s
  end.

(** [s.replace(old, new)], the same scan as [count]. *)
Fixpoint replace_skip (old new : str) (skip : nat) (s : str) : str :=
  match s with
  | [] => []
  | c :: s' =>
      match skip with
      | S k => replace_skip old new k s'
      | O =>
          if startswith old s
          then new ++ replace_skip old new (length old - 1) s'
          else c :: replace_skip old new 0 s'
      end
  end.

Definition replace (old new s : str) : str :=
  match old with
  | [] => new ++ flat_map (fun c => c :: new) s
  | _ :: _ => replace_skip old new 0 s
  end.

(** [str.isspace] on one code point. *)
Definition isspace (c : N) : bool :=
  ((9 <=? c) && (c <=? 13) || (28 <=? c) && (c <=? 32)
   || (c =? 133) || (c =? 160) || (c =? 5760)
   || (8192 <=? c) && (c <=? 8202)
   || (c =? 8232) || (c =? 8233) || (c =? 8239) || (c =? 8287)
   || (c =? 12288))%N.

Fixpoint lstrip (s : str) : str :=
  match s with
  | [] => []
  | c :: s' => if isspace c then lstrip s' else s
  end.

(** [s.strip()] *)
Definition strip (s : str) : str := rev (lstrip (rev (lstrip s))).

(** [sep.join(parts)] *)
Fixpoint join (sep : str) (parts : list str) : str :=
  match parts with
  | [] => []
  | [p] => p
  | p :: ps => p ++ sep ++ join sep ps
  end.

(** [str(n)] for an [int]. *)
Definition of_int (n : Z) : str := lit (NilZero.string_of_int (Z.to_int n)).

(** The lower-case image of an ASCII code point. *)
Definition ascii_lower (c : N) : N :=
  if ((65 <=? c) && (c <=? 90))%N then (c + 32)%N else c.

(** The Unicode character database behind [str.lower].  CPython maps each
    code point to its full lower-case mapping, a sequence of code points;
    only the capital sigma looks at its neighbours.  The table is not part
    of the repository: it is an interface here, asked for the code points
    beyond ASCII only. *)
Class CaseTable := {
  to_lower_full : str -> N -> str -> str
}.

Section Lower.
Context `{CaseTable}.

(** The image of [c] between [before] and [after]. *)
Definition lower_at (before : str) (c : N) (after : str) : str :=
  if (c <? 128)%N then [ascii_lower c] else to_lower_full before c after.

Fixpoint lower_from (before s : str) : str :=
  match s with
  | [] => []
  | c :: after => lower_at before c after ++ lower_from (before ++ [c]) after
  end.

(** [s.lower()] *)
Definition lower (s : str) : str := lower_from [] s.
End Lower.

(** A table that knows the Kelvin sign, whose lower case is the letter k,
    and leaves every other code point as it is. *)
Definition KELVIN : N := 8490.

#[export] Instance small_table : CaseTable :=
  {| to_lower_full _ c _ := [if (c =? KELVIN)%N then 107%N else c] |}.

End PyStr.

Import PyStr.

(** ** Scoring logic *)

Definition MAX_FILES : Z := 10.
Definition MAX_FILE_CHARS : Z := 8000.

(** [len(x)] *)
Definition len {A} (l : list A) : Z := Z.of_nat (length l).

(** The keys of the [counts] literal, in the order the dictionary holds
    them: the order of [for level in counts]. *)
Definition LEVELS : list string := ["HIGH"; "MEDIUM"; "LOW"]%string.

(** The formatted string [f"[{level}]"]. *)
Definition tag (level : string) : str := lit ("[" ++ level ++ "]")%string.

(** One turn of the inner loop, [counts[level] += text.count(f"[{level}]")];
    [level] is a key of [counts], so the entry is there to be altered. *)
Definition add_count (text : str) (counts : gmap string Z) (level : string)
    : gmap string Z :=
  alter (fun old => old + count (tag level) text) level counts.

Definition extract_severity_counts (analyses : list str) : gmap string Z :=
  let counts : gmap string Z :=
    <["HIGH"%string := 0]> (<["MEDIUM"%string := 0]> (<["LOW"%string := 0]> ∅)) in
  foldl (fun counts text => foldl (add_count text) counts LEVELS)
        counts analyses.

(** [counts["HIGH"]] and its siblings raise [KeyError] on a dictionary
    without the key: the result is [None] then. *)
Definition calculate_health_score (counts : gmap string Z) : option Z :=
  let score := 100 in
  high ← counts !! "HIGH"%string;
  let score := score - high * 15 in
  medium ← counts !! "MEDIUM"%string;
  let score := score - medium * 7 in
  low ← counts !! "LOW"%string;
  let score := score - low * 3 in
  Some (Z.max score 0).

(** ** File loader *)

Definition ALLOWED_EXT : list str :=
  [lit ".py"; lit ".js"; lit ".jsx"; lit ".ts"; lit ".tsx"; lit ".html";
   lit ".css"; lit ".java"; lit ".cpp"].

Definition IGNORED_DIRS : list str :=
  [lit ".git"; lit "node_modules"; lit "venv"; lit "__pycache__";
   lit "dist"; lit "build"].

(** The dictionary [{"path": ..., "content": ...}] of one sampled file. *)
Record SourceFile := { path : str; content : str }.

(** What lies under the directory the walk starts from.  The entries of a
    directory are in the order [os.scandir] lists them.
    - [File name text]: anything that is not a directory; [text] is what
      [open(..., errors="ignore")] followed by [read()] returns, [None]
      when either raises.
    - [Dir name entries]: a directory that can be listed.
    - [DirUnreadable name]: a directory whose listing raises [OSError],
      which [os.walk] swallows.
    - [DirLink name]: a symbolic link to a directory, named among [dirs]
      but not followed. *)
#[local] Set Warnings "-register-all".
Inductive node :=
| File (name : str) (text : option str)
| Dir (name : str) (entries : list node)
| DirUnreadable (name : str)
| DirLink (name : str).

Definition SLASH : N := 47.
Definition DOT : N := 46.
Definition NEWLINE : N := 10.

(** [p.rfind(c)] for a single character, counting positions from [i]. *)
Fixpoint rfind_from (c : N) (i : Z) (p : str) : Z :=
  match p with
  | [] => -1
  | x :: p' =>
      let r := rfind_from c (i + 1) p' in
      if 0 <=? r then r else if N.eqb x c then i else -1
  end.

Definition rfind (c : N) (p : str) : Z := rfind_from c 0 p.

(** [p[i:j]] for indices that are not negative. *)
Definition slice (p : str) (i j : Z) : str :=
  drop (Z.to_nat i) (take (Z.to_nat j) p).

(** [os.path.splitext] (the POSIX one): the extension starts at the last
    dot of the last path component, unless only dots precede it there. *)
Definition splitext (p : str) : str * str :=
  let sepIndex := rfind SLASH p in
  let dotIndex := rfind DOT p in
  if sepIndex <? dotIndex then
    let filenameIndex := sepIndex + 1 in
    if forallb (N.eqb DOT) (slice p filenameIndex dotIndex)
    then (p, [])
    else (take (Z.to_nat dotIndex) p, drop (Z.to_nat dotIndex) p)
  else (p, []).

(** The non-directories of a listing, each with what reading it gives. *)
Definition nondirs (entries : list node) : list (str * option str) :=
  omap (fun e => match e with
                 | File name text => Some (name, text)
                 | _ => None
                 end) entries.

(** [os.walk(top)], top-down, links not followed, errors ignored.  [keep]
    is the pruning of [dirs] that the loop body does in place before the
    walk goes on; [root] is the path of [top] below the starting directory,
    one component per directory entered.  Every step gives that path and
    the files found there. *)
Fixpoint os_walk (keep : str -> bool) (root : list str) (top : node)
    : list (list str * list (str * option str)) :=
  match top with
  | Dir _ entries =>
      (root, nondirs entries) ::
      flat_map (fun d =>
                  match d with
                  | Dir name _ | DirUnreadable name =>
                      if keep name then os_walk keep (root ++ [name]) d else []
                  | File _ _ | DirLink _ => []
                  end) entries
  | File _ _ | DirUnreadable _ | DirLink _ => []
  end.

(** [os.path.relpath(os.path.join(root, file), local_path)]: the walk
    builds [root] from [local_path] by appending the names it enters, so
    the relative path is those names and the file name, joined by the
    separator. *)
Definition relpath (root : list str) (file : str) : str :=
  join [SLASH] (root ++ [file]).

(** The body of [for file in files]. *)
Definition load_file (root : list str) (files_data : list SourceFile)
    (entry : str * option str) : list SourceFile :=
  let '(file, text) := entry in
  let ext := (splitext file).2 in
  if bool_decide (ext ∈ ALLOWED_EXT) then
    match text with
    | Some content =>
        if (300 <? len content) && (len content <? MAX_FILE_CHARS)
        then files_data ++
             [{| path := relpath root file;
                 content := take (Z.to_nat MAX_FILE_CHARS) content |}]
        else files_data
    | None => files_data
    end
  else files_data.

(** The outer loop over the steps of the walk, with its [break]. *)
Fixpoint load_dirs (steps : list (list str * list (str * option str)))
    (files_data : list SourceFile) : list SourceFile :=
  match steps with
  | [] => files_data
  | (root, files) :: steps' =>
      let files_data := foldl (load_file root) files_data files in
      if MAX_FILES <=? len files_data then files_data
      else load_dirs steps' files_data
  end.

Definition load_files (local_path : node) : list SourceFile :=
  let keep d := negb (bool_decide (d ∈ IGNORED_DIRS)) in
  take (Z.to_nat MAX_FILES) (load_dirs (os_walk keep [] local_path) []).

(** ** File analysis (rule-based) *)

Definition ARROW : N := 8594.

Definition HIGH_FINDING : str :=
  lit "[HIGH] Possible hardcoded API key detected " ++ [ARROW] ++
  lit " Move secrets to environment variables".

Definition MEDIUM_FINDING : str :=
  lit "[MEDIUM] Bare except clause used " ++ [ARROW] ++
  lit " Catch specific exceptions".

Definition LOW_FINDING : str :=
  lit "[LOW] Debug print statements found " ++ [ARROW] ++
  lit " Replace with logging".

Definition NO_ISSUES : str := lit "[LOW] No major issues detected".

Section Scanner.
Context `{CaseTable}.

(** The list [findings] as [analyze_file] has it before the final join. *)
Definition scan (content : str) : list str :=
  let findings := [] in
  let findings :=
    if contains (lit "api_key") (lower content)
    then findings ++ [HIGH_FINDING] else findings in
  let findings :=
    if contains (lit "except:") content
    then findings ++ [MEDIUM_FINDING] else findings in
  let findings :=
    if contains (lit "print(") content
    then findings ++ [LOW_FINDING] else findings in
  let findings :=
    match findings with
    | [] => findings ++ [NO_ISSUES]
    | _ :: _ => findings
    end in
  findings.

Definition analyze_file (file : SourceFile) : str :=
  (path file ++ lit ":" ++ [NEWLINE]) ++ join [NEWLINE] (scan (content file)).
End Scanner.

(** ** The outside world *)

(** A decoded JSON document; an object keeps its members in order.  A
    number with a fraction or an exponent is kept as it was written. *)
Inductive json :=
| JNull
| JBool (b : bool)
| JInt (n : Z)
| JFloat (literal : str)
| JStr (s : str)
| JList (items : list json)
| JDict (members : list (str * json)).

(** A raised exception: its class and [str(e)]. *)
Inductive exn := Exception (class : string) (message : str).

Definition str_of_exn (e : exn) : str :=
  match e with Exception _ message => message end.

(** The collaborators of one request.
    - [GITHUB_TOKEN]: the environment variable, if set.
    - [clone_from url]: [Repo.clone_from(url, local_path)] into the fresh
      temporary directory; the tree found there afterwards, or the
      exception raised.
    - [chat_create prompt]: the completion request; the [content] of the
      first choice of the response, which may be [None].
    - [json_loads text]: the decoder.
    - [format_exc e]: the traceback text. *)
Record World := {
  GITHUB_TOKEN : option str;
  clone_from : str -> exn + node;
  chat_create : str -> exn + option str;
  json_loads : str -> exn + json;
  format_exc : exn -> str
}.

(** The calls that leave the process. *)
Inductive event :=
| Cloned (url : str)
| Completion (prompt : str).

(** A computation that logs its external calls and may raise. *)
Definition io (A : Type) : Type := (list event * (exn + A))%type.

Definition io_ret {A} (a : A) : io A := ([], inr a).
Definition io_raise {A} (e : exn) : io A := ([], inl e).
Definition io_call {A} (ev : event) (r : exn + A) : io A := ([ev], r).
Definition io_bind {A B} (m : io A) (f : A -> io B) : io B :=
  match m with
  | (log, inl e) => (log, inl e)
  | (log, inr a) => let '(log', r) := f a in (log ++ log', r)
  end.

Notation "'do' x <- m ; k" := (io_bind m (fun x => k))
  (at level 10, x name, m at level 100, k at level 200).

(** [d[key]] on a [counts] dictionary. *)
Definition getitem (counts : gmap string Z) (key : string) : io Z :=
  match counts !! key with
  | Some v => io_ret v
  | None => io_raise (Exception "KeyError" (lit ("'" ++ key ++ "'")%string))
  end.

(** ** Final summary *)

Definition QUOTE : N := 34.
Definition FENCE : str := lit "```".

(** The f-string of [summarize_repo], line by line. *)
Definition prompt_lines (file_results : list str) (score high medium low : Z)
    : list str :=
  [ [];
    lit "You are generating a final audit report.";
    [];
    lit "FACTS (DO NOT CHANGE):";
    lit "- Health score: " ++ of_int score;
    lit "- Issue counts:";
    lit "  - HIGH: " ++ of_int high;
    lit "  - MEDIUM: " ++ of_int medium;
    lit "  - LOW: " ++ of_int low;
    [];
    lit "VERIFIED FINDINGS:";
    join [NEWLINE] file_results;
    [];
    lit "TASK:";
    lit "1. Write a 3-sentence executive summary that reflects the score and severity";
    lit "2. Create a prioritized improvement roadmap:";
    lit "   - Fix HIGH issues first";
    lit "   - Then MEDIUM";
    lit "   - Then LOW";
    [];
    lit "RULES:";
    lit "- Do NOT introduce new issues";
    lit "- Every roadmap item must map to findings above";
    [];
    lit "OUTPUT JSON ONLY:";
    lit "{";
    lit "  " ++ [QUOTE] ++ lit "score" ++ [QUOTE] ++ lit ": " ++ of_int score ++ lit ",";
    lit "  " ++ [QUOTE] ++ lit "summary" ++ [QUOTE] ++ lit ": " ++ [QUOTE; QUOTE] ++ lit ",";
    lit "  " ++ [QUOTE] ++ lit "roadmap" ++ [QUOTE] ++ lit ": [" ++ [QUOTE] ++ lit "..." ++ [QUOTE] ++ lit "],";
    lit "  " ++ [QUOTE] ++ lit "details" ++ [QUOTE] ++ lit ": [" ++ [QUOTE] ++ lit "..." ++ [QUOTE] ++ lit "]";
    lit "}";
    [] ].

Definition summarize_repo (w : World) (file_results : list str) (score : Z)
    (counts : gmap string Z) : io json :=
  do high <- getitem counts "HIGH";
  do medium <- getitem counts "MEDIUM";
  do low <- getitem counts "LOW";
  let prompt :=
    join [NEWLINE] (prompt_lines file_results score high medium low) in
  do content <- io_call (Completion prompt) (chat_create w prompt);
  match content with
  | None =>
      io_raise (Exception "AttributeError"
                  (lit "'NoneType' object has no attribute 'replace'"))
  | Some text =>
      let text :=
        strip (replace FENCE [] (replace (FENCE ++ lit "json") [] text)) in
      ([], json_loads w text)
  end.

(** ** Routes *)

(** [jsonify(body), status] *)
Definition response : Type := (json * Z)%type.

Definition error_body (message : str) : json :=
  JDict [(lit "error", JStr message)].

Section Routes.
Context `{CaseTable}.

(** The URL handed to the clone: the token goes in when the URL names
    the hosting site and a token is set and not empty. *)
Definition auth_url (w : World) (repo_url : str) : str :=
  match GITHUB_TOKEN w with
  | Some (c :: token) =>
      if contains (lit "github.com") repo_url
      then replace (lit "https://")
                   (lit "https://" ++ (c :: token) ++ lit "@") repo_url
      else repo_url
  | Some [] | None => repo_url
  end.

(** The body of the [with] block of [analyze]. *)
Definition analyze_repo (w : World) (repo_url : str) : io response :=
  let auth_url := auth_url w repo_url in
  do local_path <- io_call (Cloned auth_url) (clone_from w auth_url);
  let files := load_files local_path in
  match files with
  | [] => io_ret (error_body (lit "No readable source files found"), 400)
  | _ :: _ =>
      let file_results := analyze_file <$> files in
      let severity_counts := extract_severity_counts file_results in
      do score <-
        match calculate_health_score severity_counts with
        | Some score => io_ret score
        | None => io_raise (Exception "KeyError" (lit "'HIGH'"))
        end;
      do final_report <- summarize_repo w file_results score severity_counts;
      io_ret (final_report, 200)
  end.

(** [POST /analyze].  [url] is [request.json.get("url")] for a body that
    is an object whose [url] member, when there is one, is a string. *)
Definition analyze (w : World) (url : option str) : list event * response :=
  match url with
  | None | Some [] => ([], (error_body (lit "No URL provided"), 400))
  | Some repo_url =>
      match analyze_repo w repo_url with
      | (log, inr resp) => (log, resp)
      | (log, inl e) =>
          (log, (JDict [(lit "error", JStr (str_of_exn e));
                        (lit "trace", JStr (format_exc w e))], 500))
      end
  end.
End Routes.

(** * Vocabulary of the properties *)

(** ** Substrings *)

(** The number of positions of [s] at which [sub] starts. *)
Fixpoint occurrences (sub s : str) : Z :=
  (if startswith sub s then 1 else 0) +
  match s with
  | [] => 0
  | _ :: s' => occurrences sub s'
  end.

(** The occurrences of [sub] in all of [texts]. *)
Definition total_occurrences (sub : str) (texts : list str) : Z :=
  foldr (λ text acc, occurrences sub text + acc) 0 texts.

Definition is_ascii (s : str) : Prop := Forall (λ c, (c < 128)%N) s.

(** [word] occurs in [s] in some mix of upper and lower case letters. *)
Definition occurs_ignoring_case (word s : str) : Prop :=
  ∃ pre mid post, s = pre ++ mid ++ post ∧ ascii_lower <$> mid = word.

(** ** Counts and findings *)

(** A [counts] dictionary with its three entries. *)
Definition counts_of (high medium low : Z) : gmap string Z :=
  <["HIGH"%string := high]>
    (<["MEDIUM"%string := medium]> (<["LOW"%string := low]> ∅)).

(** The findings of one severity in a list of findings: those that start
    with its tag marker. *)
Definition emitted (level : string) (findings : list str) : Z :=
  len (filter (λ finding, startswith (tag level) finding = true) findings).

Section Files.
Context `{CaseTable}.

(** The findings of one severity that the scanner emits for [files]. *)
Definition findings_emitted (level : string) (files : list SourceFile) : Z :=
  foldr (λ file acc, emitted level (scan (content file)) + acc) 0 files.

(** The tag markers of one severity in the paths of [files]. *)
Definition path_markers (level : string) (files : list SourceFile) : Z :=
  foldr (λ file acc, occurrences (tag level) (path file) + acc) 0 files.
End Files.

(** ** Files below a directory *)

(** [file_at top dirs file text]: below [top], going down the directories
    [dirs] in turn, there is the file [file], and reading it gives [text]. *)
Inductive file_at : node → list str → str → option str → Prop :=
| file_here name entries file text :
    File file text ∈ entries →
    file_at (Dir name entries) [] file text
| file_below name entries d sub dirs file text :
    Dir d sub ∈ entries →
    file_at (Dir d sub) dirs file text →
    file_at (Dir name entries) (d :: dirs) file text.

(** What the sampler promises of a record it returns. *)
Definition sampled (top : node) (r : SourceFile) : Prop :=
  ∃ dirs file text,
    file_at top dirs file (Some text)
    ∧ Forall (λ d, d ∉ IGNORED_DIRS) dirs
    ∧ (splitext file).2 ∈ ALLOWED_EXT
    ∧ 300 < len text < MAX_FILE_CHARS
    ∧ path r = relpath dirs file
    ∧ content r = text.

(** No name below [top] holds the separator, as on a real file system: a
    relative path then reads back as its components in one way only. *)
Definition plain_names (top : node) : Prop :=
  ∀ dirs file text,
    file_at top dirs file text →
    Forall (λ name, SLASH ∉ name) (dirs ++ [file]).

(** ** Reports *)

(** The member [score] of a report. *)
Definition report_score (report : json) : option json :=
  match report with
  | JDict members =>
      snd <$> List.find (λ member, bool_decide (member.1 = lit "score")) members
  | _ => None
  end.

(** The reading of C1 that the code does not meet, for one world and one
    request: the report carries the score computed from the findings. *)
Definition report_keeps_score `{CaseTable} (w : World) (repo_url : str)
    : Prop :=
  ∀ tree log report score,
    clone_from w (auth_url w repo_url) = inr tree →
    analyze w (Some repo_url) = (log, (report, 200)) →
    calculate_health_score
      (extract_severity_counts (analyze_file <$> load_files tree))
    = Some score →
    report_score report = Some (JInt score).

(** ** Sample data *)

Definition config_py : SourceFile :=
  {| path := lit "src/config.py";
     content := lit "api_key = " ++ [QUOTE] ++ lit "x" ++ [QUOTE] |}.

Definition tagged_py : SourceFile :=
  {| path := lit "notes[HIGH]/clean.py"; content := lit "x = 1" |}.

(** A tree for the sampler: an ignored directory at the top and one
    further down, a link, files of 300, 301, 7999 and 8000 characters, a
    file that cannot be read, one whose extension is not listed. *)
Definition sample_tree : node :=
  Dir (lit "tmpm3x0k2_a")
    [ File (lit "app.py") (Some (replicate 301 97%N));
      File (lit "README.md") (Some (replicate 500 97%N));
      File (lit "short.py") (Some (replicate 300 97%N));
      File (lit "locked.py") None;
      Dir (lit "build") [ File (lit "out.js") (Some (replicate 400 97%N)) ];
      DirLink (lit "vendor");
      Dir (lit "src")
        [ File (lit "long.ts") (Some (replicate 8000 97%N));
          File (lit "index.ts") (Some (replicate 7999 97%N));
          Dir (lit "node_modules")
            [ File (lit "dep.js") (Some (replicate 400 97%N)) ] ] ].

Definition app_py : SourceFile :=
  {| path := lit "app.py"; content := replicate 301 97%N |}.

Definition index_ts : SourceFile :=
  {| path := lit "src/index.ts"; content := replicate 7999 97%N |}.

(** A walk that starts in a directory called build. *)
Definition build_tree : node :=
  Dir (lit "build") [ File (lit "main.py") (Some (replicate 301 97%N)) ].

(** A repository with one file that holds a key. *)
Definition key_tree : node :=
  Dir (lit "tmpq8w1z5rk")
    [ File (lit "config.py")
           (Some (lit "api_key = 1" ++ replicate 300 32%N)) ].

(** A repository without any source file. *)
Definition docs_tree : node :=
  Dir (lit "tmp0a9s8d7f")
    [ File (lit "README.md") (Some (replicate 900 97%N)) ].

(** The reply of a service that does not keep to the score it was given:
    a fenced JSON object whose score is 0. *)
Definition reply_body : str :=
  lit "{" ++ [QUOTE] ++ lit "score" ++ [QUOTE] ++ lit ": 0, " ++
  [QUOTE] ++ lit "summary" ++ [QUOTE] ++ lit ": " ++
  [QUOTE] ++ lit "Hopeless." ++ [QUOTE] ++ lit ", " ++
  [QUOTE] ++ lit "roadmap" ++ [QUOTE] ++ lit ": [], " ++
  [QUOTE] ++ lit "details" ++ [QUOTE] ++ lit ": []}".

Definition reply_text : str :=
  FENCE ++ lit "json" ++ [NEWLINE] ++ reply_body ++ [NEWLINE] ++ FENCE.

Definition reply_json : json :=
  JDict [ (lit "score", JInt 0);
          (lit "summary", JStr (lit "Hopeless."));
          (lit "roadmap", JList []);
          (lit "details", JList []) ].

(** The decoder, on the one text it is given here. *)
Definition loads_reply (text : str) : exn + json :=
  if bool_decide (text = reply_body) then inr reply_json
  else inl (Exception "JSONDecodeError" (lit "Expecting value")).

Definition altering_world : World :=
  {| GITHUB_TOKEN := None;
     clone_from _ := inr key_tree;
     chat_create _ := inr (Some reply_text);
     json_loads := loads_reply;
     format_exc _ := lit "Traceback (most recent call last):" |}.

(** The same service, a repository of documents, a token in the
    environment. *)
Definition docs_world : World :=
  {| GITHUB_TOKEN := Some (lit "ghp_token");
     clone_from _ := inr docs_tree;
     chat_create _ := inr (Some reply_text);
     json_loads := loads_reply;
     format_exc _ := lit "Traceback (most recent call last):" |}.

Definition repo_url : str := lit "https://github.com/octo/demo".

(** ** Vocabulary of the further properties *)

(** The test [d not in IGNORED_DIRS] of the pruning in [load_files]. *)
Definition keep_dir (d : str) : bool := negb (bool_decide (d ∈ IGNORED_DIRS)).

(** The loops of [load_files] run to the end of the walk, without the
    [break]. *)
Definition load_all (steps : list (list str * list (str * option str)))
    (files_data : list SourceFile) : list SourceFile :=
  foldl (λ files_data step, foldl (load_file step.1) files_data step.2)
        files_data steps.

(** Two entries of a directory that differ at most in what lies inside
    directories with an ignored name. *)
Inductive same_but_ignored : node → node → Prop :=
| sbi_same e : same_but_ignored e e
| sbi_ignored d sub sub' :
    d ∈ IGNORED_DIRS → same_but_ignored (Dir d sub) (Dir d sub')
| sbi_inside d entries entries' :
    Forall2 same_but_ignored entries entries' →
    same_but_ignored (Dir d entries) (Dir d entries').

(** A tree like [sample_tree], with other things in the ignored
    directories. *)
Definition sample_tree_rebuilt : node :=
  Dir (lit "tmpm3x0k2_a")
    [ File (lit "app.py") (Some (replicate 301 97%N));
      File (lit "README.md") (Some (replicate 500 97%N));
      File (lit "short.py") (Some (replicate 300 97%N));
      File (lit "locked.py") None;
      Dir (lit "build")
        (replicate 20 (File (lit "gen.js") (Some (replicate 400 97%N))));
      DirLink (lit "vendor");
      Dir (lit "src")
        [ File (lit "long.ts") (Some (replicate 8000 97%N));
          File (lit "index.ts") (Some (replicate 7999 97%N));
          Dir (lit "node_modules") [] ] ].

(** What [os_walk] does with one entry of the directory it is in. *)
Definition walk_entry (keep : str → bool) (root : list str) (d : node)
    : list (list str * list (str * option str)) :=
  match d with
  | Dir name _ | DirUnreadable name =>
      if keep name then os_walk keep (root ++ [name]) d else []
  | File _ _ | DirLink _ => []
  end.

(** The prompt that [analyze] sends for the repository found in [tree]:
    the one [summarize_repo] builds from the scanner outputs, their counts
    and the score. *)
Definition repo_prompt `{CaseTable} (tree : node) : str :=
  let file_results := analyze_file <$> load_files tree in
  let high := total_occurrences (lit "[HIGH]") file_results in
  let medium := total_occurrences (lit "[MEDIUM]") file_results in
  let low := total_occurrences (lit "[LOW]") file_results in
  let score := Z.max (100 - high * 15 - medium * 7 - low * 3) 0 in
  join [NEWLINE] (prompt_lines file_results score high medium low).


(** A URL that names the hosting site in its path only. *)
Definition mirror_url : str :=
  lit "https://example.org/mirror/github.com/octo/demo".

Definition clone_error : exn :=
  Exception "GitCommandError" (lit "repository not found").

Definition api_error : exn :=
  Exception "APIConnectionError" (lit "Connection error.").

(** The clone fails. *)
Definition offline_world : World :=
  {| GITHUB_TOKEN := None;
     clone_from _ := inl clone_error;
     chat_create _ := inr (Some reply_text);
     json_loads := loads_reply;
     format_exc _ := lit "Traceback (most recent call last):" |}.

(** The completion request fails. *)
Definition silent_world : World :=
  {| GITHUB_TOKEN := None;
     clone_from _ := inr key_tree;
     chat_create _ := inl api_error;
     json_loads := loads_reply;
     format_exc _ := lit "Traceback (most recent call last):" |}.

(** The service answers in prose. *)
Definition chatty_world : World :=
  {| GITHUB_TOKEN := None;
     clone_from _ := inr key_tree;
     chat_create _ := inr (Some (lit "Sorry, I cannot help."));
     json_loads := loads_reply;
     format_exc _ := lit "Traceback (most recent call last):" |}.

(** The service answers without fences, with blanks around the object. *)
Definition plain_world : World :=
  {| GITHUB_TOKEN := None;
     clone_from _ := inr key_tree;
     chat_create _ := inr (Some ([NEWLINE] ++ reply_body ++ lit "  "));
     json_loads := loads_reply;
     format_exc _ := lit "Traceback (most recent call last):" |}.

(** * Properties *)

(** ** Substrings *)

Section Substrings.
Implicit Types sub s t : str.

Lemma startswith_spec sub s :
  startswith sub s = true ↔ ∃ rest, s = sub ++ rest.
Proof.
  revert s. induction sub as [|a sub IH]; intros s; simpl.
  - split; eauto.
  - destruct s as [|b s]; simpl.
    + split; [done|]. intros [? ?]; done.
    + rewrite andb_true_iff, N.eqb_eq, IH. split.
      * intros [-> [rest ->]]. eauto.
      * intros [rest [= -> ->]]. eauto.
Qed.

Lemma startswith_app sub rest : startswith sub (sub ++ rest) = true.
Proof. apply startswith_spec. eauto. Qed.

Lemma contains_spec sub s :
  contains sub s = true ↔ ∃ pre post, s = pre ++ sub ++ post.
Proof.
  induction s as [|c s IH]; simpl.
  - rewrite orb_false_r, startswith_spec. split.
    + intros [rest Hr]. exists [], rest. done.
    + intros (pre & post & Hs). symmetry in Hs.
      apply app_eq_nil in Hs as [-> Hs]. apply app_eq_nil in Hs as [-> ->].
      exists []. done.
  - rewrite orb_true_iff, startswith_spec, IH. split.
    + intros [[rest Hr] | (pre & post & ->)].
      * exists [], rest. done.
      * exists (c :: pre), post. done.
    + intros (pre & post & Hs). destruct pre as [|c' pre]; simpl in Hs.
      * left. eauto.
      * right. injection Hs as -> ->. eauto.
Qed.

Lemma occurrences_cons sub c s :
  occurrences sub (c :: s) =
  (if startswith sub (c :: s) then 1 else 0) + occurrences sub s.
Proof. done. Qed.

Lemma occurrences_nonneg sub s : 0 ≤ occurrences sub s.
Proof.
  induction s as [|c s IH]; simpl; destruct (startswith sub _); lia.
Qed.

Lemma contains_occurrences sub s :
  contains sub s = false ↔ occurrences sub s = 0.
Proof.
  induction s as [|c s IH]; simpl.
  - destruct (startswith sub []); simpl; split; (done || lia).
  - pose proof (occurrences_nonneg sub s).
    destruct (startswith sub (c :: s)); simpl.
    + split; [done | lia].
    + rewrite IH. lia.
Qed.

(** A pattern whose first character does not come back in it cannot
    overlap itself: the scan of [count] then meets every occurrence. *)
Lemma count_skip_occurrences h t s k :
  h ∉ t → Forall (λ c, c ≠ h) (take k s) →
  count_skip (h :: t) k s = occurrences (h :: t) s.
Proof.
  intros Ht. revert k. induction s as [|c s IH]; intros k Hk; [done|].
  destruct k as [|k]; cbn [count_skip occurrences].
  - destruct (startswith (h :: t) (c :: s)) eqn:Hsw.
    + rewrite IH; [done|].
      apply startswith_spec in Hsw as [rest [= -> ->]].
      replace (length (h :: t) - 1)%nat with (length t) by (simpl; lia).
      rewrite take_app_length.
      apply Forall_forall. intros x Hx ->. done.
    + rewrite IH; [lia|]. rewrite take_0. constructor.
  - cbn [take] in Hk. apply Forall_cons in Hk as [Hc Hk].
    rewrite IH by done.
    replace (startswith (h :: t) (c :: s)) with false; [lia|].
    simpl. destruct (N.eqb_spec h c); [congruence|done].
Qed.

Lemma count_occurrences h t s :
  h ∉ t → count (h :: t) s = occurrences (h :: t) s.
Proof.
  intros Ht. unfold count. apply count_skip_occurrences; [done|].
  rewrite take_0. constructor.
Qed.

Lemma startswith_app_l sub s t :
  startswith sub s = true → startswith sub (s ++ t) = true.
Proof.
  rewrite !startswith_spec. intros [rest ->]. rewrite <- app_assoc. eauto.
Qed.

Lemma occurrences_app_ge sub s t :
  sub ≠ [] → occurrences sub s + occurrences sub t ≤ occurrences sub (s ++ t).
Proof.
  intros Hsub. induction s as [|c s IH].
  - simpl. destruct sub; [done|]. simpl. lia.
  - cbn [app occurrences].
    destruct (startswith sub (c :: s)) eqn:Hsw.
    + apply (startswith_app_l _ _ t) in Hsw as Hsw'.
      cbn [app] in Hsw'. rewrite Hsw'. lia.
    + destruct (startswith sub (c :: s ++ t)); lia.
Qed.

(** No occurrence runs across a character that the pattern lacks. *)
Lemma startswith_app_sep sub s c t :
  c ∉ sub → startswith sub (s ++ c :: t) = startswith sub s.
Proof.
  revert s. induction sub as [|a sub IH]; intros s Hc; [done|].
  apply not_elem_of_cons in Hc as [Hca Hc].
  destruct s as [|b s]; simpl.
  - destruct (N.eqb_spec a c); [congruence|done].
  - rewrite IH; done.
Qed.

Lemma occurrences_app_sep sub s c t :
  sub ≠ [] → c ∉ sub →
  occurrences sub (s ++ c :: t) = occurrences sub s + occurrences sub (c :: t).
Proof.
  intros Hsub Hc. induction s as [|b s IH].
  - cbn [app]. destruct sub as [|a sub]; [done|].
    change (occurrences (a :: sub) []) with 0. lia.
  - cbn [app]. rewrite !(occurrences_cons sub b), IH.
    change (b :: s ++ c :: t) with ((b :: s) ++ c :: t).
    rewrite startswith_app_sep by done. lia.
Qed.
End Substrings.

(** ** Severity aggregator and health scorer *)

Lemma levels_inv (P : string → Prop) :
  P "HIGH"%string → P "MEDIUM"%string → P "LOW"%string →
  ∀ level, level ∈ LEVELS → P level.
Proof.
  intros HH HM HL level Hl. unfold LEVELS in Hl.
  repeat (apply elem_of_cons in Hl as [->|Hl]); try done.
  by apply elem_of_nil in Hl.
Qed.

Lemma HIGH_level : "HIGH"%string ∈ LEVELS.
Proof. apply list_elem_of_here. Qed.

Lemma MEDIUM_level : "MEDIUM"%string ∈ LEVELS.
Proof. apply list_elem_of_further, list_elem_of_here. Qed.

Lemma LOW_level : "LOW"%string ∈ LEVELS.
Proof. do 2 apply list_elem_of_further. apply list_elem_of_here. Qed.

#[local] Hint Resolve HIGH_level MEDIUM_level LOW_level : core.

(** A goal about a level of [LEVELS], one level at a time. *)
Ltac each_level level Hl :=
  revert level Hl; refine (levels_inv _ _ _ _); cbv beta.

Lemma tag_count (level : string) (text : str) :
  level ∈ LEVELS → count (tag level) text = occurrences (tag level) text.
Proof.
  intros Hl. each_level level Hl;
    apply count_occurrences; by apply (bool_decide_unpack _).
Qed.

Lemma add_count_levels (text : str) (high medium low : Z) :
  foldl (add_count text) (counts_of high medium low) LEVELS =
  counts_of (high + occurrences (lit "[HIGH]") text)
            (medium + occurrences (lit "[MEDIUM]") text)
            (low + occurrences (lit "[LOW]") text).
Proof.
  unfold LEVELS, counts_of, add_count. cbn [foldl].
  rewrite !tag_count by auto.
  rewrite alter_insert_eq.
  rewrite (alter_insert_ne _ "MEDIUM" "HIGH"), alter_insert_eq by done.
  rewrite (alter_insert_ne _ "LOW" "HIGH"),
          (alter_insert_ne _ "LOW" "MEDIUM"), alter_insert_eq by done.
  done.
Qed.

Lemma aggregate_from (analyses : list str) (high medium low : Z) :
  foldl (λ counts text, foldl (add_count text) counts LEVELS)
        (counts_of high medium low) analyses =
  counts_of (high + total_occurrences (lit "[HIGH]") analyses)
            (medium + total_occurrences (lit "[MEDIUM]") analyses)
            (low + total_occurrences (lit "[LOW]") analyses).
Proof.
  revert high medium low.
  induction analyses as [|text analyses IH]; intros high medium low.
  - simpl. by rewrite !Z.add_0_r.
  - cbn [foldl total_occurrences foldr].
    rewrite add_count_levels, IH, !Z.add_assoc. done.
Qed.

Lemma extract_severity_counts_eq (analyses : list str) :
  extract_severity_counts analyses =
  counts_of (total_occurrences (lit "[HIGH]") analyses)
            (total_occurrences (lit "[MEDIUM]") analyses)
            (total_occurrences (lit "[LOW]") analyses).
Proof. unfold extract_severity_counts. apply aggregate_from. Qed.

Lemma calculate_health_score_counts_of (high medium low : Z) :
  calculate_health_score (counts_of high medium low) =
  Some (Z.max (100 - high * 15 - medium * 7 - low * 3) 0).
Proof. done. Qed.

(** C2: on a [counts] dictionary whose three entries H, M and L are not
    negative, the health scorer returns max(0, 100 - 15 H - 7 M - 3 L), and
    that score lies between 0 and 100. *)
Theorem health_score_formula (counts : gmap string Z) (H M L : Z) :
  counts !! "HIGH"%string = Some H →
  counts !! "MEDIUM"%string = Some M →
  counts !! "LOW"%string = Some L →
  0 ≤ H → 0 ≤ M → 0 ≤ L →
  calculate_health_score counts = Some (Z.max 0 (100 - 15 * H - 7 * M - 3 * L))
  ∧ 0 ≤ Z.max 0 (100 - 15 * H - 7 * M - 3 * L) ≤ 100.
Proof.
  intros HH HM HL ? ? ?. unfold calculate_health_score.
  rewrite HH, HM, HL. simpl. split; [f_equal|]; lia.
Qed.

Lemma health_score_formula_witness :
  calculate_health_score (counts_of 2 1 4) = Some 51 ∧ 0 ≤ 51 ≤ 100.
Proof.
  apply (health_score_formula (counts_of 2 1 4) 2 1 4);
    first [reflexivity | lia].
Defined.

(** The score is 0 as soon as the deductions pass 100. *)
Example health_score_floor :
  calculate_health_score (counts_of 7 0 0) = Some 0.
Proof. reflexivity. Qed.

(** C7: the aggregator returns a dictionary with exactly the keys HIGH,
    MEDIUM and LOW, each holding the number of occurrences of its tag marker
    in all the texts together. *)
Theorem extract_severity_counts_totals (analyses : list str) :
  dom (extract_severity_counts analyses)
    = ({["HIGH"; "MEDIUM"; "LOW"]} : gset string)%string
  ∧ extract_severity_counts analyses !! "HIGH"%string
    = Some (total_occurrences (lit "[HIGH]") analyses)
  ∧ extract_severity_counts analyses !! "MEDIUM"%string
    = Some (total_occurrences (lit "[MEDIUM]") analyses)
  ∧ extract_severity_counts analyses !! "LOW"%string
    = Some (total_occurrences (lit "[LOW]") analyses).
Proof.
  rewrite extract_severity_counts_eq. unfold counts_of. split_and!.
  - rewrite !dom_insert_L, dom_empty_L. set_solver.
  - by rewrite lookup_insert_eq.
  - rewrite lookup_insert_ne by done. by rewrite lookup_insert_eq.
  - rewrite !lookup_insert_ne by done. by rewrite lookup_insert_eq.
Qed.

(** The placeholder of a file without findings counts as one LOW. *)
Example aggregate_placeholder :
  extract_severity_counts [lit "a.py:" ++ [NEWLINE] ++ NO_ISSUES]
  = counts_of 0 0 1.
Proof. by rewrite extract_severity_counts_eq. Qed.

(** ** Heuristic scanner *)

Lemma ascii_lower_small (c : N) : (ascii_lower c < 128)%N → (c < 128)%N.
Proof.
  unfold ascii_lower.
  destruct (N.leb_spec 65 c), (N.leb_spec c 90); simpl; lia.
Qed.

Lemma is_ascii_lower_inv (s : str) : is_ascii (ascii_lower <$> s) → is_ascii s.
Proof.
  unfold is_ascii. rewrite Forall_fmap. intros Hs.
  eapply Forall_impl; [exact Hs|]. intros c. apply ascii_lower_small.
Qed.

Section ScannerFacts.
Context `{CaseTable}.

Lemma lower_from_app (before pre rest : str) :
  ∃ x, lower_from before (pre ++ rest) = x ++ lower_from (before ++ pre) rest.
Proof.
  revert before. induction pre as [|c pre IH]; intros before.
  - exists []. by rewrite app_nil_r.
  - destruct (IH (before ++ [c])) as [x Hx]. cbn [app lower_from].
    rewrite Hx, <- (app_assoc before [c] pre).
    eexists. by rewrite app_assoc.
Qed.

Lemma lower_from_ascii (before mid post : str) :
  is_ascii mid →
  lower_from before (mid ++ post)
  = (ascii_lower <$> mid) ++ lower_from (before ++ mid) post.
Proof.
  intros Hmid. revert before.
  induction Hmid as [|c mid Hc _ IH]; intros before.
  - by rewrite app_nil_r.
  - cbn [app lower_from fmap list_fmap]. unfold lower_at.
    apply N.ltb_lt in Hc as ->.
    by rewrite IH, <- (app_assoc before [c] mid).
Qed.

(** On ASCII text [lower] is the letter-by-letter map. *)
Lemma lower_ascii (s : str) : is_ascii s → lower s = ascii_lower <$> s.
Proof.
  intros Hs. unfold lower.
  rewrite <- (app_nil_r s) at 1. rewrite lower_from_ascii by done.
  apply app_nil_r.
Qed.

(** A word of ASCII letters written in any case is found after [lower]. *)
Lemma lower_contains (word content : str) :
  is_ascii word → occurs_ignoring_case word content →
  contains word (lower content) = true.
Proof.
  intros Hw (pre & mid & post & -> & Hmid). subst word.
  apply is_ascii_lower_inv in Hw. unfold lower.
  destruct (lower_from_app [] pre (mid ++ post)) as [x ->].
  rewrite lower_from_ascii by done. apply contains_spec. eauto.
Qed.

(** On ASCII text that is all there is to the test of the first rule. *)
Lemma lower_contains_ascii (word content : str) :
  is_ascii content →
  contains word (lower content) = true ↔ occurs_ignoring_case word content.
Proof.
  intros Hc. rewrite lower_ascii, contains_spec by done. split.
  - intros (pre & post & Heq).
    apply fmap_app_inv in Heq as (pre' & rest & -> & Heq & ->).
    symmetry in Heq.
    apply fmap_app_inv in Heq as (mid & post' & -> & -> & ->).
    exists pre', mid, post'. done.
  - intros (pre & mid & post & -> & <-).
    exists (ascii_lower <$> pre), (ascii_lower <$> post).
    by rewrite !fmap_app.
Qed.

Lemma api_key_ascii : is_ascii (lit "api_key").
Proof. by apply (bool_decide_unpack _). Qed.

(** The eight lists [scan] can return, by the outcome of its tests. *)
Lemma scan_cases (content : str) :
  scan content =
  match contains (lit "api_key") (lower content),
        contains (lit "except:") content,
        contains (lit "print(") content with
  | false, false, false => [NO_ISSUES]
  | high, medium, low =>
      (if high then [HIGH_FINDING] else []) ++
      (if medium then [MEDIUM_FINDING] else []) ++
      (if low then [LOW_FINDING] else [])
  end.
Proof.
  unfold scan.
  by destruct (contains _ (lower _)), (contains (lit "except:") _),
              (contains (lit "print(") _).
Qed.

(** C4: the scanner never returns an empty list of findings; a text that
    holds "api_key" in any case gives the HIGH finding, one that holds
    "except:" the MEDIUM finding, one that holds "print(" the LOW finding,
    each whatever the other rules do; and when no rule matches the list is
    the single LOW placeholder. *)
Theorem scan_rules (content : str) :
  scan content ≠ []
  ∧ (occurs_ignoring_case (lit "api_key") content →
     HIGH_FINDING ∈ scan content)
  ∧ (contains (lit "except:") content = true → MEDIUM_FINDING ∈ scan content)
  ∧ (contains (lit "print(") content = true → LOW_FINDING ∈ scan content)
  ∧ (contains (lit "api_key") (lower content) = false →
     contains (lit "except:") content = false →
     contains (lit "print(") content = false →
     scan content = [NO_ISSUES])
  ∧ (is_ascii content →
     ¬ occurs_ignoring_case (lit "api_key") content →
     contains (lit "except:") content = false →
     contains (lit "print(") content = false →
     scan content = [NO_ISSUES]).
Proof.
  rewrite scan_cases. split_and!.
  - by destruct (contains _ (lower _)), (contains (lit "except:") _),
                (contains (lit "print(") _).
  - intros Hk. rewrite (lower_contains _ _ api_key_ascii Hk).
    destruct (contains (lit "except:") _), (contains (lit "print(") _);
      set_solver.
  - intros ->.
    destruct (contains _ (lower _)), (contains (lit "print(") _); set_solver.
  - intros ->.
    destruct (contains _ (lower _)), (contains (lit "except:") _); set_solver.
  - by intros -> -> ->.
  - intros Hc Hk -> ->.
    destruct (contains _ (lower _)) eqn:Hl; [|done].
    by apply lower_contains_ascii in Hl.
Qed.
End ScannerFacts.

Lemma tag_nonempty (level : string) : tag level ≠ [].
Proof. done. Qed.

Lemma colon_not_in_tag (level : string) : level ∈ LEVELS → 58%N ∉ tag level.
Proof.
  intros Hl. each_level level Hl; by apply (bool_decide_unpack _).
Qed.

Section ScannerCounts.
Context `{CaseTable}.

(** Running [scan] on a text written out in ASCII. *)
Ltac run_scan :=
  unfold scan; rewrite lower_ascii by (by apply (bool_decide_unpack _));
  reflexivity.

(** C10: the first rule looks for "api_key" in any case, the other two
    look for "except:" and "print(" as they are written: a text whose only
    candidate is "Except:" or "PRINT(" gets the LOW placeholder alone. *)
Theorem scan_case_sensitivity :
  (∀ content, occurs_ignoring_case (lit "api_key") content →
              HIGH_FINDING ∈ scan content)
  ∧ scan (lit "api_key") = [HIGH_FINDING]
  ∧ scan (lit "API_KEY") = [HIGH_FINDING]
  ∧ scan (lit "Api_Key") = [HIGH_FINDING]
  ∧ scan (lit "except:") = [MEDIUM_FINDING]
  ∧ scan (lit "Except:") = [NO_ISSUES]
  ∧ scan (lit "print(") = [LOW_FINDING]
  ∧ scan (lit "PRINT(") = [NO_ISSUES]
  ∧ scan (lit "try: f() Except: PRINT(x)") = [NO_ISSUES]
  ∧ (∀ content,
       scan content = [NO_ISSUES] ↔
       contains (lit "api_key") (lower content) = false
       ∧ contains (lit "except:") content = false
       ∧ contains (lit "print(") content = false).
Proof.
  split_and!; try run_scan.
  - intros content Hk. rewrite scan_cases.
    rewrite (lower_contains _ _ api_key_ascii Hk).
    destruct (contains (lit "except:") _), (contains (lit "print(") _);
      set_solver.
  - intros content. rewrite scan_cases.
    destruct (contains _ (lower _)), (contains (lit "except:") _),
             (contains (lit "print(") _); split;
      first [done | intros (? & ? & ?); done].
Qed.

Lemma joined_occurrences (level : string) (content : str) :
  level ∈ LEVELS →
  occurrences (tag level) (58%N :: NEWLINE :: join [NEWLINE] (scan content))
  = emitted level (scan content).
Proof.
  intros Hl. rewrite scan_cases.
  each_level level Hl;
    destruct (contains _ (lower _)), (contains (lit "except:") _),
             (contains (lit "print(") _); reflexivity.
Qed.

(** The tag markers of a scanner output: those of the path and one for
    each finding. *)
Lemma analyze_file_occurrences (file : SourceFile) (level : string) :
  level ∈ LEVELS →
  occurrences (tag level) (analyze_file file)
  = occurrences (tag level) (path file) + emitted level (scan (content file)).
Proof.
  intros Hl. unfold analyze_file. rewrite <- app_assoc.
  change (lit ":" ++ [NEWLINE]) with [58%N; NEWLINE]. cbn [app].
  rewrite occurrences_app_sep, joined_occurrences;
    auto using tag_nonempty, colon_not_in_tag.
Qed.

Lemma analyze_file_counts (file : SourceFile) :
  extract_severity_counts [analyze_file file]
  = counts_of
      (occurrences (lit "[HIGH]") (path file)
       + emitted "HIGH" (scan (content file)))
      (occurrences (lit "[MEDIUM]") (path file)
       + emitted "MEDIUM" (scan (content file)))
      (occurrences (lit "[LOW]") (path file)
       + emitted "LOW" (scan (content file))).
Proof.
  rewrite extract_severity_counts_eq. cbn [total_occurrences foldr].
  rewrite !Z.add_0_r.
  change (lit "[HIGH]") with (tag "HIGH").
  change (lit "[MEDIUM]") with (tag "MEDIUM").
  change (lit "[LOW]") with (tag "LOW").
  rewrite !analyze_file_occurrences by auto.
  done.
Qed.

(** C3: one sampled file whose content holds "api_key" in some case,
    neither "except:" nor "print(", and whose path holds no tag marker:
    scanner, aggregator and scorer give the counts HIGH 1, MEDIUM 0, LOW 0
    and the score 85. *)
Theorem single_api_key_file (file : SourceFile) :
  occurs_ignoring_case (lit "api_key") (content file) →
  contains (lit "except:") (content file) = false →
  contains (lit "print(") (content file) = false →
  contains (lit "[HIGH]") (path file) = false →
  contains (lit "[MEDIUM]") (path file) = false →
  contains (lit "[LOW]") (path file) = false →
  extract_severity_counts [analyze_file file] = counts_of 1 0 0
  ∧ calculate_health_score (extract_severity_counts [analyze_file file])
    = Some 85.
Proof.
  intros Hk He Hp HH HM HL.
  apply contains_occurrences in HH, HM, HL.
  assert (extract_severity_counts [analyze_file file] = counts_of 1 0 0)
    as ->; [|done].
  rewrite analyze_file_counts, HH, HM, HL, scan_cases, He, Hp.
  by rewrite (lower_contains _ _ api_key_ascii Hk).
Qed.

Lemma analyze_files_occurrences (files : list SourceFile) (level : string) :
  level ∈ LEVELS →
  total_occurrences (tag level) (analyze_file <$> files)
  = path_markers level files + findings_emitted level files.
Proof.
  intros Hl. induction files as [|file files IH]; [done|].
  cbn [fmap list_fmap total_occurrences path_markers findings_emitted foldr].
  fold (total_occurrences (tag level) (analyze_file <$> files)).
  fold (path_markers level files). fold (findings_emitted level files).
  rewrite analyze_file_occurrences, IH by done. lia.
Qed.

Lemma path_markers_nonneg (files : list SourceFile) (level : string) :
  0 ≤ path_markers level files.
Proof.
  induction files as [|file files IH]; [done|].
  cbn [path_markers foldr]. fold (path_markers level files).
  pose proof (occurrences_nonneg (tag level) (path file)). lia.
Qed.

Lemma path_markers_pos (files : list SourceFile) (file : SourceFile)
    (level : string) :
  file ∈ files → contains (tag level) (path file) = true →
  0 < path_markers level files.
Proof.
  intros Hin Hc. induction Hin as [file files|file other files _ IH];
    cbn [path_markers foldr]; fold (path_markers level files).
  - pose proof (path_markers_nonneg files level).
    pose proof (occurrences_nonneg (tag level) (path file)) as Hge.
    destruct (decide (occurrences (tag level) (path file) = 0)) as [Hz|];
      [|lia].
    apply contains_occurrences in Hz. congruence.
  - pose proof (occurrences_nonneg (tag level) (path other)).
    specialize (IH Hc). lia.
Qed.

(** C9: the scanner puts the path in front of the findings, so the tag
    markers of the paths are counted with them: when the path of a sampled
    file holds the marker of a severity, the count of that severity is the
    number of its findings plus the markers in the paths, more than the
    findings alone. *)
Theorem path_markers_are_counted (files : list SourceFile) (file : SourceFile)
    (level : string) :
  level ∈ LEVELS →
  file ∈ files →
  contains (tag level) (path file) = true →
  extract_severity_counts (analyze_file <$> files) !! level
  = Some (path_markers level files + findings_emitted level files)
  ∧ findings_emitted level files
    < path_markers level files + findings_emitted level files.
Proof.
  intros Hl Hin Hc. split.
  - rewrite extract_severity_counts_eq.
    change (lit "[HIGH]") with (tag "HIGH").
    change (lit "[MEDIUM]") with (tag "MEDIUM").
    change (lit "[LOW]") with (tag "LOW").
    rewrite !analyze_files_occurrences by auto.
    clear Hin Hc. each_level level Hl; done.
  - pose proof (path_markers_pos files file level Hin Hc). lia.
Qed.
End ScannerCounts.

(** Beyond ASCII the case table decides: the Kelvin sign is a capital of
    the letter k, and [lower] turns it into one. *)
Example scan_kelvin :
  scan (lit "API_" ++ [KELVIN] ++ lit "EY") = [HIGH_FINDING].
Proof. reflexivity. Qed.

Lemma single_api_key_file_witness :
  extract_severity_counts [analyze_file config_py] = counts_of 1 0 0
  ∧ calculate_health_score (extract_severity_counts [analyze_file config_py])
    = Some 85.
Proof.
  apply (single_api_key_file config_py); try reflexivity.
  exists [], (lit "api_key"), (lit " = " ++ [QUOTE] ++ lit "x" ++ [QUOTE]).
  split; reflexivity.
Defined.

Lemma path_markers_are_counted_witness :
  extract_severity_counts (analyze_file <$> [config_py; tagged_py])
    !! "HIGH"%string = Some 2
  ∧ findings_emitted "HIGH" [config_py; tagged_py] < 2.
Proof.
  exact (path_markers_are_counted [config_py; tagged_py] tagged_py "HIGH"
           HIGH_level (list_elem_of_further _ _ _ (list_elem_of_here _ _))
           eq_refl).
Defined.

(** ** File sampler *)

Lemma node_ind_nested (P : node → Prop) :
  (∀ name text, P (File name text)) →
  (∀ name entries, Forall P entries → P (Dir name entries)) →
  (∀ name, P (DirUnreadable name)) →
  (∀ name, P (DirLink name)) →
  ∀ n, P n.
Proof.
  intros HF HD HU HL. fix IH 1.
  intros [name text|name entries|name|name].
  - apply HF.
  - apply HD. induction entries as [|e entries IHe]; constructor.
    + apply IH.
    + exact IHe.
  - apply HU.
  - apply HL.
Qed.

Lemma elem_of_nondirs (entries : list node) (file : str) (text : option str) :
  (file, text) ∈ nondirs entries → File file text ∈ entries.
Proof.
  unfold nondirs. rewrite list_elem_of_omap.
  intros ([| | |] & He & Heq); simplify_eq. done.
Qed.

(** Every step of the walk is a directory reached through kept names. *)
Lemma os_walk_steps (keep : str → bool) (top : node) :
  ∀ root step, step ∈ os_walk keep root top →
    ∃ dirs, step.1 = root ++ dirs
            ∧ Forall (λ d, keep d = true) dirs
            ∧ ∀ file text, (file, text) ∈ step.2 → file_at top dirs file text.
Proof.
  induction top as [| name entries IH | |] using node_ind_nested;
    intros root step Hstep; cbn [os_walk] in Hstep;
    try by apply elem_of_nil in Hstep.
  apply elem_of_cons in Hstep as [->|Hstep].
  - exists []. rewrite app_nil_r. split_and!; [done|constructor|].
    intros file text Hf. constructor. by apply elem_of_nondirs.
  - apply list_elem_of_In, in_flat_map in Hstep as (d & Hd & Hstep).
    apply list_elem_of_In in Hd, Hstep.
    rewrite Forall_forall in IH. specialize (IH d Hd).
    destruct d as [| d sub | d |]; try by apply elem_of_nil in Hstep.
    + destruct (keep d) eqn:Hk; [|by apply elem_of_nil in Hstep].
      destruct (IH _ _ Hstep) as (dirs & Hroot & Hkeep & Hfiles).
      exists (d :: dirs). rewrite Hroot, <- app_assoc. split_and!; [done|by constructor|].
      intros file text Hf. econstructor; eauto.
    + destruct (keep d); [|by apply elem_of_nil in Hstep].
      by apply elem_of_nil in Hstep.
Qed.

Lemma load_file_sampled (top : node) (dirs : list str)
    (files_data : list SourceFile) (file : str) (text : option str) :
  Forall (λ d, d ∉ IGNORED_DIRS) dirs →
  file_at top dirs file text →
  Forall (sampled top) files_data →
  Forall (sampled top) (load_file dirs files_data (file, text)).
Proof.
  intros Hdirs Hat Hacc. unfold load_file.
  case_bool_decide as Hext; [|done].
  destruct text as [text|]; [|done].
  destruct (300 <? len text) eqn:Hlo; [|done].
  destruct (len text <? MAX_FILE_CHARS) eqn:Hhi; [|done].
  apply Z.ltb_lt in Hlo, Hhi. cbn [andb].
  apply Forall_app. split; [done|]. constructor; [|done].
  exists dirs, file, text. cbn [path content]. split_and!; try done.
  apply take_ge. unfold len in Hhi. lia.
Qed.

Lemma load_dirs_sampled (top : node)
    (steps : list (list str * list (str * option str)))
    (files_data : list SourceFile) :
  Forall (λ step, Forall (λ d, d ∉ IGNORED_DIRS) step.1
                  ∧ ∀ file text, (file, text) ∈ step.2 →
                                 file_at top step.1 file text) steps →
  Forall (sampled top) files_data →
  Forall (sampled top) (load_dirs steps files_data).
Proof.
  intros Hsteps. revert files_data.
  induction Hsteps as [|[root files] steps [Hroot Hfiles] _ IH];
    intros files_data Hacc; [done|].
  cbn [load_dirs]. cbn [fst snd] in Hroot, Hfiles.
  assert (Forall (sampled top) (foldl (load_file root) files_data files))
    as Hnext.
  { clear IH. revert files_data Hacc.
    induction files as [|[file text] files IHf]; intros files_data Hacc;
      [done|].
    cbn [foldl]. apply IHf.
    - intros f t Hin. apply Hfiles. by right.
    - apply load_file_sampled; [done| |done]. apply Hfiles. by left. }
  destruct (MAX_FILES <=? _); auto.
Qed.

Lemma load_files_sampled (local_path : node) :
  Forall (sampled local_path) (load_files local_path).
Proof.
  unfold load_files. apply Forall_take, load_dirs_sampled; [|done].
  apply Forall_forall. intros step Hstep.
  apply os_walk_steps in Hstep as (dirs & Hroot & Hkeep & Hfiles).
  cbn [app] in Hroot. rewrite Hroot. split; [|done].
  eapply Forall_impl; [exact Hkeep|]. intros d Hd.
  by apply negb_true_iff, bool_decide_eq_false in Hd.
Qed.

Lemma splitext_app (p : str) : (splitext p).1 ++ (splitext p).2 = p.
Proof.
  unfold splitext. destruct (_ <? _); [|apply app_nil_r].
  destruct (forallb _ _); [apply app_nil_r|]. apply take_drop.
Qed.

Lemma relpath_suffix (dirs : list str) (file : str) :
  ∃ front, relpath dirs file = front ++ file.
Proof.
  unfold relpath. induction dirs as [|d dirs [front IH]].
  - by exists [].
  - exists (d ++ [SLASH] ++ front). cbn [app join].
    destruct (dirs ++ [file]) eqn:Hl.
    + by destruct dirs.
    + rewrite IH. by rewrite <- !app_assoc.
Qed.

(** Paths read back in one way when no name holds the separator. *)
Lemma app_sep_inj (x y a b : str) :
  SLASH ∉ x → SLASH ∉ y → x ++ SLASH :: a = y ++ SLASH :: b → x = y ∧ a = b.
Proof.
  revert y. induction x as [|c x IH]; intros [|d y] Hx Hy Heq;
    simplify_eq/=.
  - done.
  - by apply not_elem_of_cons in Hy as [? _].
  - by apply not_elem_of_cons in Hx as [? _].
  - apply not_elem_of_cons in Hx as [_ Hx], Hy as [_ Hy].
    destruct (IH y Hx Hy) as [-> ->]; done.
Qed.

Lemma join_sep_inj (l1 l2 : list str) :
  Forall (λ name, SLASH ∉ name) l1 → Forall (λ name, SLASH ∉ name) l2 →
  l1 ≠ [] → l2 ≠ [] →
  join [SLASH] l1 = join [SLASH] l2 → l1 = l2.
Proof.
  intros H1. revert l2.
  induction H1 as [|x l1 Hx H1 IH]; intros l2 H2 Hn1 Hn2 Heq; [done|].
  destruct H2 as [|y l2 Hy H2]; [done|].
  destruct l1 as [|x2 l1], l2 as [|y2 l2]; cbn [join] in Heq.
  - by subst.
  - subst x. exfalso. apply Hx, elem_of_app. right. apply list_elem_of_here.
  - subst y. exfalso. apply Hy, elem_of_app. right. apply list_elem_of_here.
  - apply app_sep_inj in Heq as [-> Heq]; [|done..].
    f_equal. by apply IH.
Qed.

Lemma relpath_inj (dirs dirs' : list str) (file file' : str) :
  Forall (λ name, SLASH ∉ name) (dirs ++ [file]) →
  Forall (λ name, SLASH ∉ name) (dirs' ++ [file']) →
  relpath dirs file = relpath dirs' file' → dirs = dirs' ∧ file = file'.
Proof.
  intros H1 H2 Heq. apply join_sep_inj in Heq; [|done|done|..].
  - by apply app_inj_tail in Heq.
  - by destruct dirs.
  - by destruct dirs'.
Qed.

(** C5: the sampler returns at most 10 files; each has an allow-listed
    extension, a content longer than 300 characters, and lies below the
    starting directory through directories none of which has an ignored
    name; where no name holds the separator, that is the only way to read
    the path it is returned with. *)
Theorem load_files_bounds (local_path : node) :
  len (load_files local_path) ≤ MAX_FILES
  ∧ ∀ r, r ∈ load_files local_path →
      ∃ dirs file text stem,
        file_at local_path dirs file (Some text)
        ∧ path r = relpath dirs file
        ∧ content r = text
        ∧ (splitext file).2 ∈ ALLOWED_EXT
        ∧ path r = stem ++ (splitext file).2
        ∧ 300 < len (content r)
        ∧ Forall (λ d, d ∉ IGNORED_DIRS) dirs
        ∧ (plain_names local_path →
           ∀ dirs' file',
             Forall (λ name, SLASH ∉ name) (dirs' ++ [file']) →
             path r = relpath dirs' file' →
             Forall (λ d, d ∉ IGNORED_DIRS) dirs').
Proof.
  split.
  - unfold load_files, len. rewrite length_take. unfold MAX_FILES. lia.
  - intros r Hr.
    pose proof (load_files_sampled local_path) as Hall.
    rewrite Forall_forall in Hall.
    destruct (Hall r Hr) as (dirs & file & text & Hat & Hdirs & Hext & Hlen & Hp & Hc).
    destruct (relpath_suffix dirs file) as [front Hfront].
    exists dirs, file, text, (front ++ (splitext file).1).
    split_and!; try done.
    + by rewrite Hp, Hfront, <- app_assoc, splitext_app.
    + rewrite Hc. lia.
    + intros Hplain dirs' file' Hnames Hp'. rewrite Hp in Hp'.
      apply relpath_inj in Hp' as [<- _]; eauto.
Qed.

(** The walk does not test the name of the directory it starts in. *)
Example load_files_build_root : path <$> load_files build_tree = [lit "main.py"].
Proof. vm_compute. reflexivity. Qed.

Example plain_names_key_tree : plain_names key_tree.
Proof.
  intros dirs file text Hat. inversion Hat as [? ? ? ? Hin|? ? ? ? ? ? ? Hin];
    subst; apply list_elem_of_singleton in Hin; [|done].
  injection Hin as -> ->. repeat constructor.
  by apply (bool_decide_unpack _).
Qed.

(** C6: the content of a sampled file is the whole text read from it: it is
    shorter than 8000 characters, so the cut at 8000 leaves it as it is. *)
Theorem load_files_content_whole (local_path : node) :
  ∀ r, r ∈ load_files local_path →
    ∃ dirs file text,
      file_at local_path dirs file (Some text)
      ∧ path r = relpath dirs file
      ∧ content r = text
      ∧ take (Z.to_nat MAX_FILE_CHARS) text = text
      ∧ len (content r) < 8000.
Proof.
  intros r Hr.
  pose proof (load_files_sampled local_path) as Hall.
  rewrite Forall_forall in Hall.
  destruct (Hall r Hr) as (dirs & file & text & Hat & _ & _ & Hlen & Hp & Hc).
  exists dirs, file, text. split_and!; try done.
  - apply take_ge. unfold len, MAX_FILE_CHARS in *. lia.
  - rewrite Hc. unfold MAX_FILE_CHARS in Hlen. lia.
Qed.

Example load_files_sample :
  (λ r, (path r, len (content r))) <$> load_files sample_tree
  = [ (lit "app.py", 301); (lit "src/index.ts", 7999) ].
Proof. vm_compute. reflexivity. Qed.

(** Twelve files in one directory: the loop takes them all, the final
    slice keeps ten. *)
Example load_files_many :
  len (load_files
         (Dir (lit "tmp")
              (replicate 12 (File (lit "a.py") (Some (replicate 301 97%N))))))
  = 10.
Proof. vm_compute. reflexivity. Qed.

(** ** Request handler *)

Section Handler.
Context `{CaseTable}.

(** C8: when the clone succeeds and the sampler returns no file, the
    handler answers 400 with the body error: No readable source files
    found, and the only call it has made is the clone: no completion is
    requested. *)
Theorem analyze_no_files (w : World) (repo_url : str) (tree : node) :
  repo_url ≠ [] →
  clone_from w (auth_url w repo_url) = inr tree →
  load_files tree = [] →
  analyze w (Some repo_url)
  = ([Cloned (auth_url w repo_url)],
     (JDict [(lit "error", JStr (lit "No readable source files found"))],
      400))
  ∧ ∀ prompt, Completion prompt ∉ (analyze w (Some repo_url)).1.
Proof.
  intros Hurl Hclone Hfiles.
  assert (analyze w (Some repo_url)
          = ([Cloned (auth_url w repo_url)],
             (error_body (lit "No readable source files found"), 400)))
    as Heq.
  { unfold analyze, analyze_repo. destruct repo_url as [|c rest]; [done|].
    rewrite Hclone. unfold io_call, io_bind. by rewrite Hfiles. }
  split; [exact Heq|]. intros prompt. rewrite Heq. cbn [fst].
  intros Hin. apply list_elem_of_singleton in Hin. discriminate.
Qed.

(** C1, as the code has it: a request answered with 200 has cloned the
    repository, computed counts and score from the findings of the
    sampled files, sent them in the prompt, and returns as its report the
    decoded reply of the completion service, whatever score it holds. *)
Theorem report_is_reply (w : World) (repo_url : str) (log : list event)
    (report : json) :
  analyze w (Some repo_url) = (log, (report, 200)) →
  ∃ tree high medium low score text,
    let file_results := analyze_file <$> (load_files tree) in
    let prompt :=
      join [NEWLINE] (prompt_lines file_results score high medium low) in
    clone_from w (auth_url w repo_url) = inr tree
    ∧ extract_severity_counts file_results = counts_of high medium low
    ∧ calculate_health_score (counts_of high medium low) = Some score
    ∧ chat_create w prompt = inr (Some text)
    ∧ json_loads w
        (strip (replace FENCE [] (replace (FENCE ++ lit "json") [] text)))
      = inr report
    ∧ log = [Cloned (auth_url w repo_url); Completion prompt].
Proof.
  unfold analyze, analyze_repo. destruct repo_url as [|c rest]; [done|].
  set (url := auth_url w (c :: rest)).
  destruct (clone_from w url) as [e|tree] eqn:Hclone;
    [unfold io_call, io_bind; congruence|].
  unfold io_call. cbn [io_bind].
  destruct (load_files tree) as [|f files] eqn:Hfiles; [done|].
  rewrite extract_severity_counts_eq, calculate_health_score_counts_of.
  set (file_results := analyze_file <$> (f :: files)).
  set (high := total_occurrences (lit "[HIGH]") file_results).
  set (medium := total_occurrences (lit "[MEDIUM]") file_results).
  set (low := total_occurrences (lit "[LOW]") file_results).
  set (score := Z.max (100 - high * 15 - medium * 7 - low * 3) 0).
  unfold summarize_repo, getitem, counts_of.
  rewrite lookup_insert_eq.
  rewrite lookup_insert_ne, lookup_insert_eq by done.
  rewrite !lookup_insert_ne, lookup_insert_eq by done.
  unfold io_ret, io_call. cbn [io_bind app].
  set (prompt := join [NEWLINE] (prompt_lines _ _ _ _ _)).
  destruct (chat_create w prompt) as [e|[text|]] eqn:Hchat;
    cbn [io_bind io_raise app]; try congruence.
  destruct (json_loads w _) as [e|reply] eqn:Hloads; [congruence|].
  intros [= <- <-].
  exists tree, high, medium, low, score, text. rewrite Hfiles.
  split_and!; try done.
  fold file_results. by rewrite extract_severity_counts_eq.
Qed.
End Handler.

(** ** Two worlds to run the handler in *)

Example auth_url_token :
  auth_url docs_world repo_url = lit "https://ghp_token@github.com/octo/demo".
Proof. reflexivity. Qed.

(** The handler hands back the reply of the service: score 0, where the
    findings give 85. *)
Example analyze_altering_world :
  (analyze altering_world (Some repo_url)).2 = (reply_json, 200)
  ∧ calculate_health_score
      (extract_severity_counts (analyze_file <$> (load_files key_tree)))
    = Some 85.
Proof. split; vm_compute; reflexivity. Qed.

(** C1 fails: in [altering_world] the report has score 0 and the computed
    score is 85. *)
Lemma report_score_altered : ¬ report_keeps_score altering_world repo_url.
Proof.
  intros Hkeep.
  specialize (Hkeep key_tree (analyze altering_world (Some repo_url)).1
                    reply_json 85).
  assert (report_score reply_json = Some (JInt 85)) as Hscore.
  { apply Hkeep; vm_compute; reflexivity. }
  vm_compute in Hscore. discriminate.
Qed.

Lemma report_is_reply_witness :
  ∃ tree high medium low score text,
    clone_from altering_world (auth_url altering_world repo_url) = inr tree
    ∧ extract_severity_counts (analyze_file <$> (load_files tree))
      = counts_of high medium low
    ∧ calculate_health_score (counts_of high medium low) = Some score
    ∧ chat_create altering_world
        (join [NEWLINE]
           (prompt_lines (analyze_file <$> (load_files tree))
                         score high medium low))
      = inr (Some text)
    ∧ json_loads altering_world
        (strip (replace FENCE [] (replace (FENCE ++ lit "json") [] text)))
      = inr reply_json
    ∧ (analyze altering_world (Some repo_url)).1
      = [Cloned (auth_url altering_world repo_url);
         Completion
           (join [NEWLINE]
              (prompt_lines (analyze_file <$> (load_files tree))
                            score high medium low))].
Proof.
  apply (report_is_reply altering_world repo_url
           (analyze altering_world (Some repo_url)).1 reply_json).
  vm_compute. reflexivity.
Defined.

Lemma analyze_no_files_witness :
  analyze docs_world (Some repo_url)
  = ([Cloned (lit "https://ghp_token@github.com/octo/demo")],
     (JDict [(lit "error", JStr (lit "No readable source files found"))], 400))
  ∧ ∀ prompt, Completion prompt ∉ (analyze docs_world (Some repo_url)).1.
Proof.
  apply (analyze_no_files docs_world repo_url docs_tree).
  - discriminate.
  - reflexivity.
  - vm_compute. reflexivity.
Defined.

Lemma load_files_content_whole_witness :
  ∃ dirs file text,
    file_at sample_tree dirs file (Some text)
    ∧ path app_py = relpath dirs file
    ∧ content app_py = text
    ∧ take (Z.to_nat MAX_FILE_CHARS) text = text
    ∧ len (content app_py) < 8000.
Proof.
  apply (load_files_content_whole sample_tree app_py).
  assert (load_files sample_tree = [app_py; index_ts]) as ->
    by (vm_compute; reflexivity).
  apply list_elem_of_here.
Defined.

(** * Further properties *)

(** ** Health scorer *)

(** X1: the scorer raises [KeyError] exactly when one of the keys HIGH,
    MEDIUM, LOW is missing, and its result depends on these three entries
    only. *)
Theorem score_needs_three_keys (counts : gmap string Z) :
  (is_Some (calculate_health_score counts) ↔
   ∀ level, level ∈ LEVELS → is_Some (counts !! level))
  ∧ ∀ counts' : gmap string Z,
      (∀ level, level ∈ LEVELS → counts !! level = counts' !! level) →
      calculate_health_score counts = calculate_health_score counts'.
Proof.
  split.
  - unfold calculate_health_score. split.
    + intros Hs. apply levels_inv;
        destruct (counts !! "HIGH"%string), (counts !! "MEDIUM"%string),
                 (counts !! "LOW"%string); simpl in Hs;
        first [done | by destruct Hs].
    + intros Hk.
      destruct (Hk "HIGH"%string HIGH_level) as [h ->].
      destruct (Hk "MEDIUM"%string MEDIUM_level) as [m ->].
      destruct (Hk "LOW"%string LOW_level) as [l ->]. by eexists.
  - intros counts' Heq. unfold calculate_health_score.
    by rewrite !Heq by auto.
Qed.

(** X2: more findings never give a better score: when no count goes
    down, the score does not go up. *)
Theorem score_antitone (counts counts' : gmap string Z) (s s' : Z) :
  (∀ level v v', level ∈ LEVELS →
     counts !! level = Some v → counts' !! level = Some v' → v ≤ v') →
  calculate_health_score counts = Some s →
  calculate_health_score counts' = Some s' →
  s' ≤ s.
Proof.
  intros Hle. unfold calculate_health_score.
  destruct (counts !! "HIGH"%string) as [h|] eqn:Hh; [|done].
  destruct (counts !! "MEDIUM"%string) as [m|] eqn:Hm; [|done].
  destruct (counts !! "LOW"%string) as [l|] eqn:Hl; [|done].
  destruct (counts' !! "HIGH"%string) as [h'|] eqn:Hh'; [|done].
  destruct (counts' !! "MEDIUM"%string) as [m'|] eqn:Hm'; [|done].
  destruct (counts' !! "LOW"%string) as [l'|] eqn:Hl'; [|done].
  simpl. intros [= <-] [= <-].
  pose proof (Hle _ _ _ HIGH_level Hh Hh').
  pose proof (Hle _ _ _ MEDIUM_level Hm Hm').
  pose proof (Hle _ _ _ LOW_level Hl Hl'). lia.
Qed.

Lemma score_antitone_witness : 54 ≤ 85.
Proof.
  apply (score_antitone (counts_of 1 0 0) (counts_of 2 1 3) 85 54);
    [|reflexivity|reflexivity].
  intros level v v' Hl. revert v v'.
  each_level level Hl; intros v v' Hv Hv'; vm_compute in Hv, Hv';
    injection Hv as <-; injection Hv' as <-; lia.
Defined.

(** X3: the score is never negative, but nothing caps it at 100: it
    stays within 100 exactly when the weighted sum of the counts is not
    negative. *)
Theorem score_floor_only (counts : gmap string Z) (H M L s : Z) :
  counts !! "HIGH"%string = Some H →
  counts !! "MEDIUM"%string = Some M →
  counts !! "LOW"%string = Some L →
  calculate_health_score counts = Some s →
  0 ≤ s ∧ (s ≤ 100 ↔ 0 ≤ 15 * H + 7 * M + 3 * L).
Proof.
  unfold calculate_health_score. intros -> -> ->. simpl.
  intros [= <-]. lia.
Qed.

Lemma score_floor_only_witness :
  0 ≤ 115 ∧ (115 ≤ 100 ↔ 0 ≤ 15 * -1 + 7 * 0 + 3 * 0).
Proof.
  apply (score_floor_only (counts_of (-1) 0 0) (-1) 0 0 115); reflexivity.
Defined.

(** ** Severity aggregator *)

Lemma total_occurrences_nonneg (sub : str) (texts : list str) :
  0 ≤ total_occurrences sub texts.
Proof.
  induction texts as [|text texts IH]; [done|].
  cbn [total_occurrences foldr]. fold (total_occurrences sub texts).
  pose proof (occurrences_nonneg sub text). lia.
Qed.

Lemma total_occurrences_app (sub : str) (texts texts' : list str) :
  total_occurrences sub (texts ++ texts')
  = total_occurrences sub texts + total_occurrences sub texts'.
Proof.
  induction texts as [|text texts IH]; [done|].
  cbn [app total_occurrences foldr].
  fold (total_occurrences sub (texts ++ texts')).
  fold (total_occurrences sub texts). lia.
Qed.

Lemma total_occurrences_perm (sub : str) (texts texts' : list str) :
  texts ≡ₚ texts' → total_occurrences sub texts = total_occurrences sub texts'.
Proof.
  induction 1 as [|x l l' _ IH|x y l|l l' l'' _ IH1 _ IH2];
    cbn [total_occurrences foldr]; fold (total_occurrences sub);
    [done| |lia|congruence].
  fold (total_occurrences sub l). fold (total_occurrences sub l'). lia.
Qed.

(** X4: the counts do not depend on the order of the texts: the order in
    which the walk meets the files has no effect on them. *)
Theorem counts_order_independent (analyses analyses' : list str) :
  analyses ≡ₚ analyses' →
  extract_severity_counts analyses = extract_severity_counts analyses'.
Proof.
  intros Hp. rewrite !extract_severity_counts_eq.
  by rewrite !(total_occurrences_perm _ _ _ Hp).
Qed.

Lemma counts_order_independent_witness :
  extract_severity_counts [HIGH_FINDING; NO_ISSUES; MEDIUM_FINDING]
  = extract_severity_counts [MEDIUM_FINDING; HIGH_FINDING; NO_ISSUES].
Proof.
  apply counts_order_independent.
  change ([HIGH_FINDING; NO_ISSUES] ++ [MEDIUM_FINDING]
          ≡ₚ [MEDIUM_FINDING] ++ [HIGH_FINDING; NO_ISSUES]).
  apply Permutation_app_comm.
Defined.

(** X5: the counts of two batches of texts put together are the sums of
    their counts, level by level. *)
Theorem counts_additive (analyses analyses' : list str) (level : string) :
  level ∈ LEVELS →
  ∃ n n',
    extract_severity_counts analyses !! level = Some n
    ∧ extract_severity_counts analyses' !! level = Some n'
    ∧ extract_severity_counts (analyses ++ analyses') !! level = Some (n + n').
Proof.
  intros Hl. rewrite !extract_severity_counts_eq, !total_occurrences_app.
  each_level level Hl; eexists _, _; split_and!; reflexivity.
Qed.

Lemma counts_additive_witness :
  ∃ n n',
    extract_severity_counts [HIGH_FINDING] !! "LOW"%string = Some n
    ∧ extract_severity_counts [NO_ISSUES; LOW_FINDING] !! "LOW"%string = Some n'
    ∧ extract_severity_counts ([HIGH_FINDING] ++ [NO_ISSUES; LOW_FINDING])
        !! "LOW"%string = Some (n + n').
Proof. apply (counts_additive _ _ "LOW"). apply LOW_level. Defined.

(** X6: the scorer never fails on what the aggregator returns, and the
    score it gives then lies between 0 and 100. *)
Theorem aggregate_then_score (analyses : list str) :
  ∃ s, calculate_health_score (extract_severity_counts analyses) = Some s
       ∧ 0 ≤ s ≤ 100.
Proof.
  rewrite extract_severity_counts_eq, calculate_health_score_counts_of.
  eexists. split; [done|].
  pose proof (total_occurrences_nonneg (lit "[HIGH]") analyses).
  pose proof (total_occurrences_nonneg (lit "[MEDIUM]") analyses).
  pose proof (total_occurrences_nonneg (lit "[LOW]") analyses). lia.
Qed.

(** ** Scanner, aggregator and scorer together *)

Section ScannerFurther.
Context `{CaseTable}.

(** How many findings of each level [scan] emits, by its three tests. *)
Lemma scan_emitted (content : str) :
  let high := contains (lit "api_key") (lower content) in
  let medium := contains (lit "except:") content in
  let low := contains (lit "print(") content in
  emitted "HIGH" (scan content) = (if high then 1 else 0)
  ∧ emitted "MEDIUM" (scan content) = (if medium then 1 else 0)
  ∧ emitted "LOW" (scan content)
    = (if low then 1 else if high || medium then 0 else 1).
Proof.
  rewrite scan_cases.
  destruct (contains _ (lower _)), (contains (lit "except:") _),
           (contains (lit "print(") _); split_and!; reflexivity.
Qed.

Lemma findings_emitted_cons (level : string) (file : SourceFile)
    (files : list SourceFile) :
  findings_emitted level (file :: files)
  = emitted level (scan (content file)) + findings_emitted level files.
Proof. done. Qed.

Lemma len_cons {A} (x : A) (l : list A) : len (x :: l) = 1 + len l.
Proof. unfold len. cbn [length]. lia. Qed.

Lemma findings_emitted_bounds (files : list SourceFile) :
  (∀ level, level ∈ LEVELS → 0 ≤ findings_emitted level files ≤ len files)
  ∧ len files ≤ findings_emitted "HIGH" files
                + findings_emitted "MEDIUM" files
                + findings_emitted "LOW" files.
Proof.
  induction files as [|file files [IHl IHs]].
  - split; [|done]. apply levels_inv; done.
  - pose proof (scan_emitted (content file)) as (Hh & Hm & Hl).
    cbv zeta in Hh, Hm, Hl.
    pose proof (IHl _ HIGH_level). pose proof (IHl _ MEDIUM_level).
    pose proof (IHl _ LOW_level).
    rewrite len_cons. split.
    + apply levels_inv; rewrite findings_emitted_cons;
        rewrite ?Hh, ?Hm, ?Hl;
        destruct (contains _ (lower _)), (contains (lit "except:") _),
                 (contains (lit "print(") _); cbn [orb]; lia.
    + rewrite !findings_emitted_cons, Hh, Hm, Hl.
      destruct (contains _ (lower _)), (contains (lit "except:") _),
               (contains (lit "print(") _); cbn [orb]; lia.
Qed.

(** The counts of a batch of scanner outputs. *)
Lemma analyze_files_counts (files : list SourceFile) :
  extract_severity_counts (analyze_file <$> files)
  = counts_of
      (path_markers "HIGH" files + findings_emitted "HIGH" files)
      (path_markers "MEDIUM" files + findings_emitted "MEDIUM" files)
      (path_markers "LOW" files + findings_emitted "LOW" files).
Proof.
  rewrite extract_severity_counts_eq.
  change (lit "[HIGH]") with (tag "HIGH").
  change (lit "[MEDIUM]") with (tag "MEDIUM").
  change (lit "[LOW]") with (tag "LOW").
  by rewrite !analyze_files_occurrences by auto.
Qed.

(** X7: every scanned file costs at least 3 points, a file without any
    trigger too, since its placeholder is tagged LOW: the score of [n]
    files is at most 100 - 3 n, and never 100 once a file is scanned. *)
Theorem every_file_costs_three (files : list SourceFile) :
  ∃ s,
    calculate_health_score (extract_severity_counts (analyze_file <$> files))
    = Some s
    ∧ s ≤ Z.max 0 (100 - 3 * len files)
    ∧ (files ≠ [] → s ≤ 97).
Proof.
  rewrite analyze_files_counts, calculate_health_score_counts_of.
  eexists. split; [done|].
  destruct (findings_emitted_bounds files) as [Hl Hs].
  pose proof (Hl _ HIGH_level). pose proof (Hl _ MEDIUM_level).
  pose proof (Hl _ LOW_level).
  pose proof (path_markers_nonneg files "HIGH").
  pose proof (path_markers_nonneg files "MEDIUM").
  pose proof (path_markers_nonneg files "LOW").
  split; [lia|]. intros Hne.
  assert (1 ≤ len files)
    by (destruct files; [done|rewrite len_cons; unfold len; lia]).
  lia.
Qed.

Lemma path_markers_none (files : list SourceFile) (level : string) :
  (∀ file, file ∈ files → contains (tag level) (path file) = false) →
  path_markers level files = 0.
Proof.
  induction files as [|file files IH]; intros Hfree; [done|].
  cbn [path_markers foldr]. fold (path_markers level files).
  rewrite IH by (intros f Hf; apply Hfree; by right).
  rewrite (proj1 (contains_occurrences _ _)); [done|].
  apply Hfree. by left.
Qed.

(** X8: when no path holds a tag marker, the counts are the numbers of
    findings the scanner emitted, none above the number of files, and the
    score of [n] files is at least 100 - 25 n. *)
Theorem counts_of_clean_paths (files : list SourceFile) :
  (∀ file level, file ∈ files → level ∈ LEVELS →
     contains (tag level) (path file) = false) →
  (∀ level, level ∈ LEVELS →
     extract_severity_counts (analyze_file <$> files) !! level
     = Some (findings_emitted level files)
     ∧ 0 ≤ findings_emitted level files ≤ len files)
  ∧ ∃ s,
      calculate_health_score (extract_severity_counts (analyze_file <$> files))
      = Some s
      ∧ Z.max 0 (100 - 25 * len files) ≤ s.
Proof.
  intros Hfree. rewrite analyze_files_counts.
  rewrite !path_markers_none by (intros f Hf; apply Hfree; auto).
  destruct (findings_emitted_bounds files) as [Hl Hs].
  pose proof (Hl _ HIGH_level). pose proof (Hl _ MEDIUM_level).
  pose proof (Hl _ LOW_level). split.
  - intros level Hlevel. split; [|by apply Hl].
    rewrite !Z.add_0_l. clear Hfree Hl. each_level level Hlevel; done.
  - rewrite calculate_health_score_counts_of. eexists. split; [done|]. lia.
Qed.

(** X9: the scanner emits between one and three findings, never the same
    one twice, and the placeholder only when it is alone. *)
Theorem scan_shape (content : str) :
  1 ≤ len (scan content) ≤ 3
  ∧ NoDup (scan content)
  ∧ (NO_ISSUES ∈ scan content → scan content = [NO_ISSUES]).
Proof.
  rewrite scan_cases.
  destruct (contains _ (lower _)), (contains (lit "except:") _),
           (contains (lit "print(") _);
    (split_and!; [done|done|by apply (bool_decide_unpack _)|];
     first [done | intros Hin; exfalso; revert Hin;
                   by apply (bool_decide_unpack _)]).
Qed.
End ScannerFurther.

Lemma counts_of_clean_paths_witness :
  (∀ level, level ∈ LEVELS →
     extract_severity_counts (analyze_file <$> [config_py; app_py]) !! level
     = Some (findings_emitted level [config_py; app_py])
     ∧ 0 ≤ findings_emitted level [config_py; app_py]
         ≤ len [config_py; app_py])
  ∧ ∃ s,
      calculate_health_score
        (extract_severity_counts (analyze_file <$> [config_py; app_py]))
      = Some s
      ∧ Z.max 0 (100 - 25 * len [config_py; app_py]) ≤ s.
Proof.
  apply (counts_of_clean_paths [config_py; app_py]).
  intros file level Hf Hl. revert file Hf.
  each_level level Hl; intros file Hf;
    repeat (apply elem_of_cons in Hf as [->|Hf]); try reflexivity;
    by apply elem_of_nil in Hf.
Defined.

(** ** File sampler *)

Lemma load_file_app (root : list str) (files_data : list SourceFile)
    (entry : str * option str) :
  load_file root files_data entry = files_data ++ load_file root [] entry.
Proof.
  destruct entry as [file [text|]]; unfold load_file;
    repeat (case_bool_decide || case_match); by rewrite ?app_nil_r.
Qed.

Lemma foldl_load_file_app (root : list str) (files_data : list SourceFile)
    (files : list (str * option str)) :
  foldl (load_file root) files_data files
  = files_data ++ foldl (load_file root) [] files.
Proof.
  revert files_data. induction files as [|entry files IH]; intros files_data.
  - by rewrite app_nil_r.
  - cbn [foldl]. rewrite IH, (IH (load_file root [] entry)), load_file_app.
    by rewrite app_assoc.
Qed.

Lemma load_all_app (steps : list (list str * list (str * option str)))
    (files_data : list SourceFile) :
  load_all steps files_data = files_data ++ load_all steps [].
Proof.
  unfold load_all. revert files_data.
  induction steps as [|step steps IH]; intros files_data.
  - by rewrite app_nil_r.
  - cbn [foldl]. rewrite IH, (IH (foldl _ [] _)), foldl_load_file_app.
    by rewrite app_assoc.
Qed.

Lemma load_dirs_take (steps : list (list str * list (str * option str)))
    (files_data : list SourceFile) :
  take (Z.to_nat MAX_FILES) (load_dirs steps files_data)
  = take (Z.to_nat MAX_FILES) (load_all steps files_data).
Proof.
  revert files_data.
  induction steps as [|[root files] steps IH]; intros files_data; [done|].
  cbn [load_dirs]. unfold load_all. cbn [foldl fst snd].
  fold (load_all steps (foldl (load_file root) files_data files)).
  destruct (Z.leb_spec MAX_FILES (len (foldl (load_file root) files_data files)))
    as [Hfull|_]; [|apply IH].
  rewrite load_all_app, take_app_le; [done|]. unfold len in Hfull. lia.
Qed.

Lemma load_files_unbroken_eq (local_path : node) :
  load_files local_path
  = take (Z.to_nat MAX_FILES) (load_all (os_walk keep_dir [] local_path) []).
Proof. unfold load_files. apply load_dirs_take. Qed.

(** X10: the [break] saves work and changes nothing: the sampler returns
    the first 10 records that the loops would collect over the whole walk,
    in the order of the walk. *)
Theorem load_files_unbroken (local_path : node) :
  load_files local_path
  = take (Z.to_nat MAX_FILES) (load_all (os_walk keep_dir [] local_path) []).
Proof.
  unfold load_files.
  change (λ d, negb (bool_decide (d ∈ IGNORED_DIRS))) with keep_dir.
  apply load_dirs_take.
Qed.

(** Every file below kept directories is met by the walk. *)
Lemma os_walk_complete (keep : str → bool) (top : node) (dirs : list str)
    (file : str) (text : option str) :
  file_at top dirs file text →
  Forall (λ d, keep d = true) dirs →
  ∀ root, ∃ files,
    (root ++ dirs, files) ∈ os_walk keep root top ∧ (file, text) ∈ files.
Proof.
  induction 1 as [name entries file text Hin
                 |name entries d sub dirs file text Hin _ IH];
    intros Hkeep root.
  - exists (nondirs entries). rewrite app_nil_r. split; [by left|].
    apply list_elem_of_omap. by exists (File file text).
  - apply Forall_cons in Hkeep as [Hd Hkeep].
    destruct (IH Hkeep (root ++ [d])) as (files & Hstep & Hfile).
    exists files. split; [|done]. rewrite <- app_assoc in Hstep.
    cbn [os_walk]. right. apply list_elem_of_In, in_flat_map.
    exists (Dir d sub). split; [by apply list_elem_of_In|].
    rewrite Hd. by apply list_elem_of_In.
Qed.

Lemma foldl_load_file_elem (root : list str) (files_data : list SourceFile)
    (files : list (str * option str)) (entry : str * option str)
    (r : SourceFile) :
  entry ∈ files → r ∈ load_file root [] entry →
  r ∈ foldl (load_file root) files_data files.
Proof.
  intros Hin. revert files_data.
  induction Hin as [entry files|entry other files _ IH];
    intros files_data Hr.
  - cbn [foldl]. rewrite foldl_load_file_app, load_file_app.
    apply elem_of_app. left. apply elem_of_app. by right.
  - cbn [foldl]. by apply IH.
Qed.

Lemma load_all_elem (steps : list (list str * list (str * option str)))
    (files_data : list SourceFile) (root : list str)
    (files : list (str * option str)) (entry : str * option str)
    (r : SourceFile) :
  (root, files) ∈ steps → entry ∈ files → r ∈ load_file root [] entry →
  r ∈ load_all steps files_data.
Proof.
  intros Hstep Hin Hr. revert files_data. unfold load_all.
  remember (root, files) as step eqn:Heq.
  induction Hstep as [step steps|step other steps _ IH]; intros files_data.
  - subst step. cbn [foldl fst snd].
    fold (load_all steps (foldl (load_file root) files_data files)).
    rewrite load_all_app. apply elem_of_app. left.
    by eapply foldl_load_file_elem.
  - cbn [foldl]. by apply IH.
Qed.

(** X11: the sampler is complete below the limit: when it returns fewer
    than 10 records, every file that can be read, has a listed extension
    and a length between 300 and 8000, and lies under directories that can
    be listed and have no ignored name, is among them. *)
Theorem load_files_complete (local_path : node) (dirs : list str) (file : str)
    (text : str) :
  len (load_files local_path) < MAX_FILES →
  file_at local_path dirs file (Some text) →
  Forall (λ d, d ∉ IGNORED_DIRS) dirs →
  (splitext file).2 ∈ ALLOWED_EXT →
  300 < len text < MAX_FILE_CHARS →
  {| path := relpath dirs file; content := text |} ∈ load_files local_path.
Proof.
  intros Hlen Hat Hdirs Hext [Hlo Hhi].
  rewrite load_files_unbroken_eq in Hlen |- *.
  unfold len in Hlen. rewrite length_take in Hlen.
  rewrite take_ge by lia.
  destruct (os_walk_complete keep_dir local_path dirs file (Some text) Hat)
    with (root := @nil str) as (files & Hstep & Hfile).
  { eapply Forall_impl; [exact Hdirs|]. intros d Hd. unfold keep_dir.
    by apply negb_true_iff, bool_decide_eq_false. }
  eapply load_all_elem; [exact Hstep|exact Hfile|].
  unfold load_file. rewrite bool_decide_eq_true_2 by done.
  apply Z.ltb_lt in Hlo as ->. apply Z.ltb_lt in Hhi as Hhi'. rewrite Hhi'.
  cbn [andb app]. rewrite take_ge by (unfold len in Hhi; lia).
  apply list_elem_of_here.
Qed.

Lemma load_files_complete_witness :
  index_ts ∈ load_files sample_tree.
Proof.
  apply (load_files_complete sample_tree [lit "src"] (lit "index.ts")
           (replicate 7999 97%N)).
  - vm_compute. reflexivity.
  - eapply file_below; [|apply file_here].
    + do 6 apply list_elem_of_further. apply list_elem_of_here.
    + apply list_elem_of_further, list_elem_of_here.
  - repeat constructor. by apply (bool_decide_unpack _).
  - by apply (bool_decide_unpack _).
  - vm_compute. split; reflexivity.
Defined.

Lemma rfind_from_absent (c : N) (i : Z) (p : str) :
  c ∉ p → rfind_from c i p = -1.
Proof.
  revert i. induction p as [|x p IH]; intros i Hc; [done|].
  apply not_elem_of_cons in Hc as [Hx Hc]. cbn [rfind_from].
  rewrite IH by done. cbn.
  destruct (N.eqb_spec x c); [congruence|done].
Qed.

Lemma rfind_from_ge (c : N) (i : Z) (p : str) :
  -1 ≤ i → -1 ≤ rfind_from c i p.
Proof.
  revert i. induction p as [|x p IH]; intros i Hi; [done|].
  cbn [rfind_from]. specialize (IH (i + 1) ltac:(lia)).
  destruct (0 <=? _); [done|]. destruct (N.eqb x c); lia.
Qed.

Lemma splitext_no_dot (file : str) :
  DOT ∉ drop 1 file → (splitext file).2 = [].
Proof.
  intros Hdot. unfold splitext, rfind.
  destruct file as [|c rest]; [done|]. cbn [drop] in Hdot.
  set (sep := rfind_from SLASH 0 (c :: rest)).
  assert (-1 ≤ sep) as Hsep by (apply rfind_from_ge; lia). clearbody sep.
  cbn [rfind_from]. rewrite (rfind_from_absent DOT _ rest Hdot).
  change (0 <=? -1) with false. cbv iota.
  destruct (N.eqb c DOT).
  - destruct (Z.ltb_spec sep 0) as [Hlt|_]; [|done].
    assert (sep = -1) as -> by lia. done.
  - destruct (Z.ltb_spec sep (-1)); [lia|done].
Qed.

(** X12: a file whose name has no dot after its first character has no
    extension for the sampler, which leaves it out whatever it holds: a
    Makefile, but also a file called .py. *)
Theorem no_extension_never_sampled (root : list str)
    (files_data : list SourceFile) (file : str) (text : option str) :
  DOT ∉ drop 1 file →
  load_file root files_data (file, text) = files_data.
Proof.
  intros Hdot. unfold load_file. rewrite (splitext_no_dot file Hdot).
  rewrite bool_decide_eq_false_2; [done|].
  by apply (bool_decide_unpack _).
Qed.

Lemma no_extension_never_sampled_witness :
  load_file [lit "src"] [app_py] (lit ".py", Some (replicate 400 97%N))
  = [app_py].
Proof.
  apply (no_extension_never_sampled [lit "src"] [app_py] (lit ".py")).
  by apply (bool_decide_unpack _).
Defined.

Lemma os_walk_dir (keep : str → bool) (root : list str) (name : str)
    (entries : list node) :
  os_walk keep root (Dir name entries)
  = (root, nondirs entries) :: flat_map (walk_entry keep root) entries.
Proof. done. Qed.

Lemma nondirs_cons (e : node) (entries : list node) :
  nondirs (e :: entries) = nondirs [e] ++ nondirs entries.
Proof. unfold nondirs. by destruct e. Qed.

(** What is inside an ignored directory is never looked at. *)
Lemma same_but_ignored_walk :
  ∀ e e', same_but_ignored e e' →
    nondirs [e] = nondirs [e']
    ∧ ∀ root, walk_entry keep_dir root e = walk_entry keep_dir root e'.
Proof.
  fix IH 3. intros e e' [e0|d sub sub' Hd|d entries entries' Hes].
  - done.
  - split; [done|]. intros root. cbn [walk_entry]. unfold keep_dir.
    by rewrite bool_decide_eq_true_2.
  - split; [done|]. intros root. cbn [walk_entry].
    destruct (keep_dir d); [|done]. rewrite !os_walk_dir.
    generalize (root ++ [d]). intros root'.
    assert (nondirs entries = nondirs entries'
            ∧ flat_map (walk_entry keep_dir root') entries
              = flat_map (walk_entry keep_dir root') entries') as [-> ->];
      [|done].
    induction Hes as [|x y l l' Hxy _ [IHn IHw]]; [done|].
    destruct (IH x y Hxy) as [Hn Hw].
    rewrite (nondirs_cons x), (nondirs_cons y), Hn, IHn.
    cbn [flat_map]. by rewrite Hw, IHw.
Qed.

(** X13: what lies inside directories with an ignored name has no
    influence on the sample, and neither has the name of the directory the
    walk starts in. *)
Theorem ignored_contents_irrelevant (name name' : str)
    (entries entries' : list node) :
  Forall2 same_but_ignored entries entries' →
  load_files (Dir name entries) = load_files (Dir name' entries').
Proof.
  intros Hes. rewrite !load_files_unbroken_eq, !os_walk_dir.
  assert (nondirs entries = nondirs entries'
          ∧ flat_map (walk_entry keep_dir []) entries
            = flat_map (walk_entry keep_dir []) entries') as [-> ->];
    [|done].
  induction Hes as [|x y l l' Hxy _ [IHn IHw]]; [done|].
  destruct (same_but_ignored_walk x y Hxy) as [Hn Hw].
  rewrite (nondirs_cons x), (nondirs_cons y), Hn, IHn.
  cbn [flat_map]. by rewrite Hw, IHw.
Qed.

Lemma ignored_contents_irrelevant_witness :
  load_files sample_tree = load_files sample_tree_rebuilt.
Proof.
  apply (ignored_contents_irrelevant (lit "tmpm3x0k2_a") (lit "tmpm3x0k2_a")).
  do 4 (constructor; [apply sbi_same|]).
  constructor;
    [apply sbi_ignored, (bool_decide_unpack _); vm_compute; exact I|].
  constructor; [apply sbi_same|].
  constructor; [|constructor].
  apply sbi_inside.
  do 2 (constructor; [apply sbi_same|]).
  constructor; [|constructor].
  apply sbi_ignored, (bool_decide_unpack _). vm_compute. exact I.
Defined.

(** ** Replacing and stripping *)

Section Replace.
Implicit Types old new s t : str.

Lemma replace_skip_none old new s :
  contains old s = false → replace_skip old new 0 s = s.
Proof.
  induction s as [|c s IH]; [done|]. cbn [contains replace_skip].
  intros [Hsw Hc]%orb_false_elim. rewrite Hsw, IH; done.
Qed.

Lemma replace_none old new s :
  old ≠ [] → contains old s = false → replace old new s = s.
Proof.
  intros Hold Hc. destruct old; [done|]. by apply replace_skip_none.
Qed.

Lemma replace_skip_pass old new t s :
  replace_skip old new (length t) (t ++ s) = replace_skip old new 0 s.
Proof.
  induction t as [|c t IH]; [|exact IH]. cbn [length app]. by destruct s.
Qed.

(** A match at the start is replaced, and the scan goes on behind it. *)
Lemma replace_prefix old new s :
  old ≠ [] → replace old new (old ++ s) = new ++ replace old new s.
Proof.
  intros Hold. destruct old as [|h t]; [done|].
  cbn [replace app replace_skip].
  change (h :: t ++ s) with ((h :: t) ++ s). rewrite startswith_app.
  replace (length (h :: t) - 1)%nat with (length t) by (simpl; lia).
  by rewrite replace_skip_pass.
Qed.

(** No match runs across a character that [old] lacks: the scan treats
    what is before and what is behind it apart. *)
Lemma replace_skip_sep old new k s c t :
  old ≠ [] → c ∉ old → (k ≤ length s)%nat →
  replace_skip old new k (s ++ c :: t)
  = replace_skip old new k s ++ c :: replace_skip old new 0 t.
Proof.
  intros Hold Hc. revert k. induction s as [|x s IH]; intros k Hk.
  - assert (k = 0)%nat as -> by (cbn in Hk; lia).
    cbn [app replace_skip].
    replace (startswith old (c :: t)) with false; [done|].
    destruct old as [|h old]; [done|]. apply not_elem_of_cons in Hc as [Hh _].
    cbn [startswith]. by destruct (N.eqb_spec h c).
  - cbn [app replace_skip]. destruct k as [|k].
    + change (x :: s ++ c :: t) with ((x :: s) ++ c :: t).
      rewrite startswith_app_sep by done.
      destruct (startswith old (x :: s)) eqn:Hsw.
      * rewrite IH, app_assoc; [done|].
        apply startswith_spec in Hsw as [rest Hrest].
        apply (f_equal length) in Hrest. rewrite length_app in Hrest.
        cbn [length] in Hrest. lia.
      * rewrite IH; [done|lia].
    + apply IH. cbn [length] in Hk. lia.
Qed.

Lemma replace_sep old new s c t :
  old ≠ [] → c ∉ old →
  replace old new (s ++ c :: t) = replace old new s ++ c :: replace old new t.
Proof.
  intros Hold Hc. destruct old as [|h old]; [done|].
  apply replace_skip_sep; [done|done|lia].
Qed.

Lemma contains_app_sep sub s c t :
  sub ≠ [] → c ∉ sub →
  contains sub s = false → contains sub t = false →
  contains sub (s ++ c :: t) = false.
Proof.
  intros Hsub Hc Hs Ht. apply contains_occurrences.
  rewrite occurrences_app_sep by done.
  apply contains_occurrences in Hs as ->.
  assert (contains sub (c :: t) = false) as Hct.
  { cbn [contains]. rewrite Ht, orb_false_r.
    destruct sub as [|h sub]; [done|]. apply not_elem_of_cons in Hc as [Hh _].
    cbn [startswith]. by destruct (N.eqb_spec h c). }
  by apply contains_occurrences in Hct as ->.
Qed.

(** A text that lacks the start of a word lacks the word. *)
Lemma contains_longer sub more s :
  contains sub s = false → contains (sub ++ more) s = false.
Proof.
  intros Hs. destruct (contains (sub ++ more) s) eqn:Hc; [|done].
  apply contains_spec in Hc as (pre & post & ->).
  rewrite <- Hs. symmetry. apply contains_spec.
  exists pre, (more ++ post). by rewrite <- app_assoc.
Qed.

Lemma lstrip_app_space s c :
  isspace c = true →
  lstrip (s ++ [c]) = match lstrip s with [] => [] | _ :: _ => lstrip s ++ [c] end.
Proof.
  intros Hc. induction s as [|x s IH]; cbn [app lstrip].
  - by rewrite Hc.
  - destruct (isspace x); [exact IH|done].
Qed.

Lemma strip_cons_space c s : isspace c = true → strip (c :: s) = strip s.
Proof. intros Hc. unfold strip. cbn [lstrip]. by rewrite Hc. Qed.

Lemma strip_snoc_space s c : isspace c = true → strip (s ++ [c]) = strip s.
Proof.
  intros Hc. unfold strip. rewrite lstrip_app_space by done.
  destruct (lstrip s) as [|x l] eqn:Hl; [done|].
  rewrite rev_app_distr. cbn [rev app lstrip]. by rewrite Hc.
Qed.
End Replace.

Lemma replace_lines (old new body rest : str) :
  old ≠ [] → NEWLINE ∉ old →
  replace old new (NEWLINE :: body ++ NEWLINE :: rest)
  = NEWLINE :: replace old new body ++ NEWLINE :: replace old new rest.
Proof.
  intros Hold Hnl.
  change (NEWLINE :: body ++ NEWLINE :: rest)
    with ([] ++ NEWLINE :: body ++ NEWLINE :: rest).
  rewrite (replace_sep old new []), (replace_sep old new body) by done.
  by destruct old.
Qed.

(** What [summarize_repo] does to the reply before it decodes it. *)
Lemma fenced_reply_clean (body : str) :
  contains FENCE body = false →
  strip (replace FENCE []
           (replace (FENCE ++ lit "json") []
              (FENCE ++ lit "json" ++ [NEWLINE] ++ body ++ [NEWLINE] ++ FENCE)))
  = strip body.
Proof.
  intros Hbody.
  assert (NEWLINE ∉ FENCE) as Hnl by (by apply (bool_decide_unpack _)).
  assert (NEWLINE ∉ FENCE ++ lit "json") as Hnl'
    by (by apply (bool_decide_unpack _)).
  assert (contains (FENCE ++ lit "json") body = false) as Hbody'
    by (by apply contains_longer).
  rewrite (app_assoc FENCE (lit "json")), replace_prefix by done.
  change ([] ++ ?x) with x.
  change ([NEWLINE] ++ body ++ [NEWLINE] ++ FENCE)
    with (NEWLINE :: body ++ NEWLINE :: FENCE).
  rewrite replace_lines, (replace_none _ _ body) by done.
  change (replace (FENCE ++ lit "json") [] FENCE) with FENCE.
  rewrite replace_lines, (replace_none _ _ body) by done.
  change (replace FENCE [] FENCE) with (@nil N).
  change (NEWLINE :: body ++ [NEWLINE]) with (NEWLINE :: (body ++ [NEWLINE])).
  rewrite strip_cons_space, strip_snoc_space; done.
Qed.

Lemma plain_reply_clean (text : str) :
  contains FENCE text = false →
  strip (replace FENCE [] (replace (FENCE ++ lit "json") [] text))
  = strip text.
Proof.
  intros Htext. rewrite (replace_none _ _ text) by (by auto using contains_longer).
  by rewrite replace_none.
Qed.

(** ** The URL of the clone *)

(** X14: the URL is cloned as it was given when no token is set, when the
    token is empty, when the URL does not name github.com, and when it does
    not hold https://. *)
Theorem auth_url_unchanged (w : World) (repo_url : str) :
  GITHUB_TOKEN w = None ∨ GITHUB_TOKEN w = Some []
  ∨ contains (lit "github.com") repo_url = false
  ∨ contains (lit "https://") repo_url = false →
  auth_url w repo_url = repo_url.
Proof.
  unfold auth_url. intros [-> | [-> | [Hg | Hs]]]; [done|done| |].
  - destruct (GITHUB_TOKEN w) as [[|c token]|]; [done| |done]. by rewrite Hg.
  - destruct (GITHUB_TOKEN w) as [[|c token]|]; [done| |done].
    destruct (contains (lit "github.com") repo_url); [|done].
    by apply replace_none.
Qed.

Lemma auth_url_unchanged_witness :
  auth_url docs_world (lit "git@github.com:octo/demo.git")
  = lit "git@github.com:octo/demo.git".
Proof.
  apply auth_url_unchanged. do 3 right. reflexivity.
Defined.

(** X15: with a token set, a URL that starts with https:// and holds
    github.com anywhere, in its host or not, is cloned with the token put
    behind the scheme. *)
Theorem auth_url_splices_token (w : World) (token rest : str) :
  GITHUB_TOKEN w = Some token →
  token ≠ [] →
  contains (lit "github.com") rest = true →
  contains (lit "https://") rest = false →
  auth_url w (lit "https://" ++ rest)
  = lit "https://" ++ token ++ lit "@" ++ rest.
Proof.
  intros Htoken Hne Hg Hs. unfold auth_url. rewrite Htoken.
  destruct token as [|c token]; [done|].
  assert (contains (lit "github.com") (lit "https://" ++ rest) = true) as ->.
  { apply contains_spec in Hg as (pre & post & ->). apply contains_spec.
    exists (lit "https://" ++ pre), post. by rewrite <- app_assoc. }
  rewrite replace_prefix by done. rewrite replace_none by done.
  by rewrite <- !app_assoc.
Qed.

Lemma auth_url_splices_token_witness :
  auth_url docs_world mirror_url
  = lit "https://ghp_token@example.org/mirror/github.com/octo/demo".
Proof.
  apply (auth_url_splices_token docs_world (lit "ghp_token")
           (lit "example.org/mirror/github.com/octo/demo"));
    first [reflexivity | discriminate].
Defined.

(** ** Final summary *)

(** The three ways a completion can end. *)
Lemma summarize_repo_steps (w : World) (file_results : list str)
    (score : Z) (counts : gmap string Z) (high medium low : Z) :
  counts !! "HIGH"%string = Some high →
  counts !! "MEDIUM"%string = Some medium →
  counts !! "LOW"%string = Some low →
  let prompt :=
    join [NEWLINE] (prompt_lines file_results score high medium low) in
  summarize_repo w file_results score counts
  = ([Completion prompt],
     match chat_create w prompt with
     | inl e => inl e
     | inr None =>
         inl (Exception "AttributeError"
                (lit "'NoneType' object has no attribute 'replace'"))
     | inr (Some text) =>
         json_loads w
           (strip (replace FENCE [] (replace (FENCE ++ lit "json") [] text)))
     end).
Proof.
  intros Hh Hm Hl prompt. unfold summarize_repo, getitem.
  rewrite Hh, Hm, Hl. unfold io_ret, io_call. cbn [io_bind app].
  fold prompt. destruct (chat_create w prompt) as [e|[text|]]; [done| |done].
  cbn [io_bind]. by destruct (json_loads w _).
Qed.

(** X16: a reply made of a json fence, a line break, a body without
    fence, a line break and a closing fence is decoded as its body, with
    the blanks around it taken off. *)
Theorem fenced_reply_decoded (w : World) (file_results : list str)
    (score : Z) (counts : gmap string Z) (high medium low : Z) (body : str) :
  counts !! "HIGH"%string = Some high →
  counts !! "MEDIUM"%string = Some medium →
  counts !! "LOW"%string = Some low →
  contains FENCE body = false →
  chat_create w
    (join [NEWLINE] (prompt_lines file_results score high medium low))
  = inr (Some (FENCE ++ lit "json" ++ [NEWLINE] ++ body ++ [NEWLINE] ++ FENCE)) →
  summarize_repo w file_results score counts
  = ([Completion
        (join [NEWLINE] (prompt_lines file_results score high medium low))],
     json_loads w (strip body)).
Proof.
  intros Hh Hm Hl Hbody Hchat.
  rewrite (summarize_repo_steps _ _ _ _ _ _ _ Hh Hm Hl). cbv zeta.
  by rewrite Hchat, fenced_reply_clean.
Qed.

Lemma fenced_reply_decoded_witness :
  summarize_repo altering_world [lit "a.py:"] 97 (counts_of 0 0 1)
  = ([Completion (join [NEWLINE] (prompt_lines [lit "a.py:"] 97 0 0 1))],
     json_loads altering_world (strip reply_body)).
Proof.
  apply (fenced_reply_decoded altering_world [lit "a.py:"] 97
           (counts_of 0 0 1) 0 0 1 reply_body); reflexivity.
Defined.

(** X17: a reply without any fence is decoded as it is, with the blanks
    around it taken off. *)
Theorem plain_reply_decoded (w : World) (file_results : list str)
    (score : Z) (counts : gmap string Z) (high medium low : Z) (text : str) :
  counts !! "HIGH"%string = Some high →
  counts !! "MEDIUM"%string = Some medium →
  counts !! "LOW"%string = Some low →
  contains FENCE text = false →
  chat_create w
    (join [NEWLINE] (prompt_lines file_results score high medium low))
  = inr (Some text) →
  summarize_repo w file_results score counts
  = ([Completion
        (join [NEWLINE] (prompt_lines file_results score high medium low))],
     json_loads w (strip text)).
Proof.
  intros Hh Hm Hl Htext Hchat.
  rewrite (summarize_repo_steps _ _ _ _ _ _ _ Hh Hm Hl). cbv zeta.
  by rewrite Hchat, plain_reply_clean.
Qed.

Lemma plain_reply_decoded_witness :
  summarize_repo plain_world [lit "a.py:"] 97 (counts_of 0 0 1)
  = ([Completion (join [NEWLINE] (prompt_lines [lit "a.py:"] 97 0 0 1))],
     json_loads plain_world (strip ([NEWLINE] ++ reply_body ++ lit "  "))).
Proof.
  apply (plain_reply_decoded plain_world [lit "a.py:"] 97
           (counts_of 0 0 1) 0 0 1); reflexivity.
Defined.

(** X18: when the dictionary of counts lacks one of its three keys, the
    summary raises before anything is sent: no completion is requested. *)
Theorem summarize_repo_missing_key (w : World) (file_results : list str)
    (score : Z) (counts : gmap string Z) (level : string) :
  level ∈ LEVELS →
  counts !! level = None →
  ∃ key,
    summarize_repo w file_results score counts
    = ([], inl (Exception "KeyError" (lit ("'" ++ key ++ "'")%string)))
    ∧ counts !! key = None.
Proof.
  intros Hl Hnone. unfold summarize_repo, getitem.
  destruct (counts !! "HIGH"%string) eqn:Hh; [|by exists "HIGH"%string].
  destruct (counts !! "MEDIUM"%string) eqn:Hm; [|by exists "MEDIUM"%string].
  destruct (counts !! "LOW"%string) eqn:Hlow; [|by exists "LOW"%string].
  exfalso. revert Hnone. each_level level Hl; congruence.
Qed.

Lemma summarize_repo_missing_key_witness :
  ∃ key,
    summarize_repo altering_world [] 100 {[ "HIGH"%string := 0 ]}
    = ([], inl (Exception "KeyError" (lit ("'" ++ key ++ "'")%string)))
    ∧ ({[ "HIGH"%string := 0 ]} : gmap string Z) !! key = None.
Proof.
  apply (summarize_repo_missing_key altering_world [] 100
           {[ "HIGH"%string := 0 ]} "LOW"); [apply LOW_level|reflexivity].
Defined.

Lemma contains_trans (a b c : str) :
  contains a b = true → contains b c = true → contains a c = true.
Proof.
  rewrite !contains_spec. intros (pre & post & ->) (pre' & post' & ->).
  exists (pre' ++ pre), (post ++ post'). by rewrite <- !app_assoc.
Qed.

Lemma join_contains (sep x : str) (parts : list str) :
  x ∈ parts → contains x (join sep parts) = true.
Proof.
  intros Hin. apply contains_spec.
  induction Hin as [x parts|x y parts Hin (pre & post & IH)].
  - destruct parts as [|y parts].
    + exists [], []. by rewrite app_nil_r.
    + exists [], (sep ++ join sep (y :: parts)). done.
  - destruct parts as [|z parts]; [by apply elem_of_nil in Hin|].
    exists (y ++ sep ++ pre), post. cbn [join] in IH |- *.
    rewrite IH. by rewrite <- !app_assoc.
Qed.

(** X19: the prompt that is sent holds every scanner output word for
    word, and the score in decimal. *)
Theorem prompt_embeds_findings (w : World) (file_results : list str)
    (score : Z) (counts : gmap string Z) :
  (∀ level, level ∈ LEVELS → is_Some (counts !! level)) →
  ∃ prompt,
    (summarize_repo w file_results score counts).1 = [Completion prompt]
    ∧ (∀ result, result ∈ file_results → contains result prompt = true)
    ∧ contains (lit "Health score: " ++ of_int score) prompt = true.
Proof.
  intros Hkeys.
  destruct (Hkeys _ HIGH_level) as [high Hh].
  destruct (Hkeys _ MEDIUM_level) as [medium Hm].
  destruct (Hkeys _ LOW_level) as [low Hl].
  rewrite (summarize_repo_steps _ _ _ _ _ _ _ Hh Hm Hl). cbv zeta.
  eexists. split; [done|]. split.
  - intros result Hin.
    apply (contains_trans _ (join [NEWLINE] file_results)).
    + by apply join_contains.
    + apply join_contains. unfold prompt_lines.
      do 11 apply list_elem_of_further. apply list_elem_of_here.
  - apply (contains_trans _ (lit "- Health score: " ++ of_int score)).
    + apply contains_spec. exists (lit "- "), [].
      rewrite app_nil_r. reflexivity.
    + apply join_contains. unfold prompt_lines.
      do 4 apply list_elem_of_further. apply list_elem_of_here.
Qed.

Lemma prompt_embeds_findings_witness :
  ∃ prompt,
    (summarize_repo altering_world [lit "a.py:"] 97 (counts_of 0 0 1)).1
    = [Completion prompt]
    ∧ (∀ result, result ∈ [lit "a.py:"] → contains result prompt = true)
    ∧ contains (lit "Health score: " ++ of_int 97) prompt = true.
Proof.
  apply (prompt_embeds_findings altering_world [lit "a.py:"] 97
           (counts_of 0 0 1)).
  apply levels_inv; by eexists.
Defined.

(** ** Request handler *)

Section HandlerFurther.
Context `{CaseTable}.

(** The handler after a clone that gave files to scan. *)
Lemma analyze_repo_steps (w : World) (repo_url : str) (tree : node) :
  clone_from w (auth_url w repo_url) = inr tree →
  load_files tree ≠ [] →
  analyze_repo w repo_url
  = ([Cloned (auth_url w repo_url); Completion (repo_prompt tree)],
     match chat_create w (repo_prompt tree) with
     | inl e => inl e
     | inr None =>
         inl (Exception "AttributeError"
                (lit "'NoneType' object has no attribute 'replace'"))
     | inr (Some text) =>
         match json_loads w
                 (strip (replace FENCE []
                           (replace (FENCE ++ lit "json") [] text))) with
         | inl e => inl e
         | inr report => inr (report, 200)
         end
     end).
Proof.
  intros Hclone Hfiles. unfold analyze_repo. rewrite Hclone.
  unfold io_call. cbn [io_bind].
  destruct (load_files tree) as [|f files] eqn:Hl; [done|].
  rewrite extract_severity_counts_eq, calculate_health_score_counts_of.
  unfold io_ret at 1. cbn [io_bind].
  rewrite (summarize_repo_steps w _ _ (counts_of _ _ _) _ _ _
             eq_refl eq_refl eq_refl).
  cbv zeta. unfold repo_prompt. rewrite Hl. cbn [io_bind app].
  destruct (chat_create w _) as [e|[text|]]; [done| |done].
  by destruct (json_loads w _).
Qed.


(** X21: when the clone raises, the answer is 500 with the message of the
    exception and the traceback, and nothing else has been called. *)
Theorem analyze_clone_failure (w : World) (repo_url : str) (e : exn) :
  repo_url ≠ [] →
  clone_from w (auth_url w repo_url) = inl e →
  analyze w (Some repo_url)
  = ([Cloned (auth_url w repo_url)],
     (JDict [(lit "error", JStr (str_of_exn e));
             (lit "trace", JStr (format_exc w e))], 500)).
Proof.
  intros Hurl Hclone. destruct repo_url as [|c rest]; [done|].
  unfold analyze, analyze_repo. by rewrite Hclone.
Qed.

(** X22: when the completion request raises, the answer is 500 with the
    message of the exception and the traceback: the findings, the counts
    and the score computed so far are not returned. *)
Theorem analyze_completion_failure (w : World) (repo_url : str) (tree : node)
    (e : exn) :
  repo_url ≠ [] →
  clone_from w (auth_url w repo_url) = inr tree →
  load_files tree ≠ [] →
  chat_create w (repo_prompt tree) = inl e →
  analyze w (Some repo_url)
  = ([Cloned (auth_url w repo_url); Completion (repo_prompt tree)],
     (JDict [(lit "error", JStr (str_of_exn e));
             (lit "trace", JStr (format_exc w e))], 500)).
Proof.
  intros Hurl Hclone Hfiles Hchat. destruct repo_url as [|c rest]; [done|].
  unfold analyze. rewrite (analyze_repo_steps _ _ _ Hclone Hfiles).
  by rewrite Hchat.
Qed.

(** X23: when the reply does not decode, fences and blanks taken off, the
    answer is 500 with the message of the decoder's exception. *)
Theorem analyze_reply_undecodable (w : World) (repo_url : str) (tree : node)
    (text : str) (e : exn) :
  repo_url ≠ [] →
  clone_from w (auth_url w repo_url) = inr tree →
  load_files tree ≠ [] →
  chat_create w (repo_prompt tree) = inr (Some text) →
  json_loads w
    (strip (replace FENCE [] (replace (FENCE ++ lit "json") [] text)))
  = inl e →
  analyze w (Some repo_url)
  = ([Cloned (auth_url w repo_url); Completion (repo_prompt tree)],
     (JDict [(lit "error", JStr (str_of_exn e));
             (lit "trace", JStr (format_exc w e))], 500)).
Proof.
  intros Hurl Hclone Hfiles Hchat Hloads.
  destruct repo_url as [|c rest]; [done|].
  unfold analyze. rewrite (analyze_repo_steps _ _ _ Hclone Hfiles).
  by rewrite Hchat, Hloads.
Qed.
End HandlerFurther.

Lemma analyze_clone_failure_witness :
  analyze offline_world (Some repo_url)
  = ([Cloned repo_url],
     (JDict [(lit "error", JStr (lit "repository not found"));
             (lit "trace", JStr (lit "Traceback (most recent call last):"))],
      500)).
Proof.
  apply (analyze_clone_failure offline_world repo_url clone_error);
    [discriminate|reflexivity].
Defined.

Lemma analyze_completion_failure_witness :
  analyze silent_world (Some repo_url)
  = ([Cloned repo_url; Completion (repo_prompt key_tree)],
     (JDict [(lit "error", JStr (lit "Connection error."));
             (lit "trace", JStr (lit "Traceback (most recent call last):"))],
      500)).
Proof.
  apply (analyze_completion_failure silent_world repo_url key_tree api_error);
    [discriminate|reflexivity| |reflexivity].
  vm_compute. discriminate.
Defined.

Lemma analyze_reply_undecodable_witness :
  analyze chatty_world (Some repo_url)
  = ([Cloned repo_url; Completion (repo_prompt key_tree)],
     (JDict [(lit "error", JStr (lit "Expecting value"));
             (lit "trace", JStr (lit "Traceback (most recent call last):"))],
      500)).
Proof.
  apply (analyze_reply_undecodable chatty_world repo_url key_tree
           (lit "Sorry, I cannot help.")
           (Exception "JSONDecodeError" (lit "Expecting value")));
    [discriminate|reflexivity| |reflexivity|vm_compute; reflexivity].
  vm_compute. discriminate.
Defined.
